(** * dynamic_list.h: a growable array behind a header, with a pluggable allocator

    A shallow embedding of the single-header dynamic list: the [Allocator] and
    [ListPrelude] structs, [create_list], [list_ensure_capacity] and the
    list_* macros, over a block-structured memory.

    Conventions.
    - [size_t] is a 64-bit unsigned integer: a [Z] reduced by [wrap] after
      every arithmetic operation the C code performs on it.
    - Memory is a finite map from the base address of each live allocation to
      its contents.  An allocation made for a list holds the prelude fields
      and the element slots that fit in its byte size; a slot never written
      is absent from the slot map.
    - An allocator decides whether a request succeeds and at which address;
      what memory holds afterwards follows the contract of malloc and
      realloc: a failed realloc leaves the block alone, a successful one
      yields a block of the requested size with the old contents up to the
      smaller of the two sizes.
    - An access outside a live allocation (a null or dangling prelude
      pointer, a slot beyond the allocated bytes) is undefined behaviour in
      C; the embedding reports it as [Undefined].
    - The [while] loop of [list_ensure_capacity] runs on fuel; [OutOfFuel]
      says that the loop had not finished when the fuel ran out. *)

From stdpp Require Import gmap list.
From Stdlib Require Import ZArith Lia.

Local Open Scope Z_scope.

(** ** Machine integers *)

Definition size_modulus : Z := 18446744073709551616.

Definition wrap (z : Z) : Z := z mod size_modulus.

(** [sizeof(ListPrelude)]: two [size_t] fields, then the allocator pointer
    aligned to [max_align_t] (16 bytes), the whole padded to that alignment. *)
Definition sizeof_ListPrelude : Z := 32.

Definition NULL : Z := 0.

(** ** Outcomes of running a piece of the C code *)

Inductive result (A : Type) : Type :=
| Done (x : A)
| Undefined
| OutOfFuel.

Arguments Done {A} x.
Arguments Undefined {A}.
Arguments OutOfFuel {A}.

(** ** The structs *)

(** The three function pointers take and return the allocator's own state,
    which is what the [context] pointer refers to.  A returned address of
    [NULL] is a failed request. *)
Record Allocator (Ctx : Type) : Type := mkAllocator {
  alloc : Z -> Ctx -> Z * Ctx;
  realloc : Z -> Z -> Ctx -> Z * Ctx;
  free : Z -> Ctx -> Ctx;
  context : Ctx
}.

Arguments mkAllocator {Ctx}.
Arguments alloc {Ctx}.
Arguments realloc {Ctx}.
Arguments free {Ctx}.
Arguments context {Ctx}.

Record ListPrelude : Type := mkListPrelude {
  capacity : Z;
  length : Z;
  allocator : Z
}.

(** One live allocation: its size in bytes, the prelude at its start and the
    element slots behind it. *)
Record Block (T : Type) : Type := mkBlock {
  blk_size : Z;
  blk_prelude : ListPrelude;
  blk_slots : gmap Z T
}.

Arguments mkBlock {T}.
Arguments blk_size {T}.
Arguments blk_prelude {T}.
Arguments blk_slots {T}.

(** The calls made to allocators, in order: allocator, arguments, result. *)
Inductive Call : Type :=
| CallAlloc (a size res : Z)
| CallRealloc (a p size res : Z)
| CallFree (a p : Z).

Record World (T Ctx : Type) : Type := mkWorld {
  heap : gmap Z (Block T);
  allocators : gmap Z (Allocator Ctx);
  calls : list Call
}.

Arguments mkWorld {T Ctx}.
Arguments heap {T Ctx}.
Arguments allocators {T Ctx}.
Arguments calls {T Ctx}.

Definition with_context {Ctx : Type} (a : Allocator Ctx) (c : Ctx) : Allocator Ctx :=
  {| alloc := alloc a; realloc := realloc a; free := free a; context := c |}.

(** [while (new_capacity < desired_capacity) new_capacity *= 2;] *)
Fixpoint grow_loop (fuel : nat) (new_capacity desired_capacity : Z) : option Z :=
  match fuel with
  | O => None
  | S fuel' =>
      if new_capacity <? desired_capacity
      then grow_loop fuel' (wrap (new_capacity * 2)) desired_capacity
      else Some new_capacity
  end.

Section Engine.

Context {T Ctx : Type}.

(** [sizeof(T)] for the element type of the lists at hand. *)
Variable sizeof_T : Z.

(** The address of the static [default_allocator] object, whose three
    functions hand the request to malloc, realloc and free; how those
    behave is what the world's allocator table holds at this address. *)
Variable default_allocator : Z.

Local Abbreviation world := (World T Ctx).

(** *** Memory accesses *)

(** [#define list_prelude(list) ((ListPrelude* )(list)-1)] *)
Definition list_prelude (list : Z) : Z := list - sizeof_ListPrelude.

(** [prelude + 1] *)
Definition prelude_end (prelude : Z) : Z := prelude + sizeof_ListPrelude.

(** [&(list)[i]] *)
Definition slot_addr (list i : Z) : Z := list + i * sizeof_T.

(** The object a [ListPrelude*] points to, when there is one. *)
Definition load_prelude (w : world) (prelude : Z) : option (Block T) :=
  if prelude =? NULL then None
  else match heap w !! prelude with
       | Some b => if sizeof_ListPrelude <=? blk_size b then Some b else None
       | None => None
       end.

Definition set_prelude (b : Block T) (h : ListPrelude) : Block T :=
  {| blk_size := blk_size b; blk_prelude := h; blk_slots := blk_slots b |}.

Definition set_slots (b : Block T) (s : gmap Z T) : Block T :=
  {| blk_size := blk_size b; blk_prelude := blk_prelude b; blk_slots := s |}.

Definition set_heap (w : world) (hp : gmap Z (Block T)) : world :=
  {| heap := hp; allocators := allocators w; calls := calls w |}.

(** [prelude->capacity = v], [prelude->length = v] and
    [prelude->allocator = v] *)
Definition store_capacity (w : world) (prelude v : Z) : option world :=
  match load_prelude w prelude with
  | Some b =>
      let h := blk_prelude b in
      Some (set_heap w (<[prelude := set_prelude b
        {| capacity := v; length := length h; allocator := allocator h |}]> (heap w)))
  | None => None
  end.

Definition store_length (w : world) (prelude v : Z) : option world :=
  match load_prelude w prelude with
  | Some b =>
      let h := blk_prelude b in
      Some (set_heap w (<[prelude := set_prelude b
        {| capacity := capacity h; length := v; allocator := allocator h |}]> (heap w)))
  | None => None
  end.

Definition store_allocator (w : world) (prelude v : Z) : option world :=
  match load_prelude w prelude with
  | Some b =>
      let h := blk_prelude b in
      Some (set_heap w (<[prelude := set_prelude b
        {| capacity := capacity h; length := length h; allocator := v |}]> (heap w)))
  | None => None
  end.

(** Slot [i] lies within the bytes of an allocation of [size] bytes. *)
Definition slot_fits (size i : Z) : bool :=
  (0 <=? i) && (sizeof_ListPrelude + (i + 1) * sizeof_T <=? size).

(** [(list)[i]] as an rvalue; an uninitialised slot has no value to give. *)
Definition read_slot (w : world) (list i : Z) : option T :=
  match load_prelude w (list_prelude list) with
  | Some b => if slot_fits (blk_size b) i then blk_slots b !! i else None
  | None => None
  end.

(** [(list)[i] = v] *)
Definition write_slot (w : world) (list i : Z) (v : T) : option world :=
  match load_prelude w (list_prelude list) with
  | Some b =>
      if slot_fits (blk_size b) i
      then Some (set_heap w (<[list_prelude list := set_slots b (<[i := v]> (blk_slots b))]> (heap w)))
      else None
  | None => None
  end.

(** [p[j]] for an element pointer [p] into the buffer of [list]. *)
Definition slot_of_addr (list p : Z) : option Z :=
  if (0 <? sizeof_T) && ((p - list) mod sizeof_T =? 0)
  then Some ((p - list) / sizeof_T) else None.

Definition read_at (w : world) (list p j : Z) : option T :=
  match slot_of_addr list p with
  | Some i => read_slot w list (i + j)
  | None => None
  end.

Definition write_at (w : world) (list p j : Z) (v : T) : option world :=
  match slot_of_addr list p with
  | Some i => write_slot w list (i + j) v
  | None => None
  end.

(** [memcpy(&(list)[dst], &(list)[src], sizeof( *(list)))] within one block:
    the bytes of slot [src], initialised or not, land in slot [dst]. *)
Definition memcpy_slot (b : Block T) (dst src : Z) : option (Block T) :=
  if slot_fits (blk_size b) dst && slot_fits (blk_size b) src
  then Some (set_slots b
         match blk_slots b !! src with
         | Some v => <[dst := v]> (blk_slots b)
         | None => delete dst (blk_slots b)
         end)
  else None.

(** *** Calls through the allocator *)

(** What a successful reallocation leaves at the new address: the old
    contents, cut to the slots that fit in the new size. *)
Definition resized (b : Block T) (new_size : Z) : Block T :=
  {| blk_size := new_size;
     blk_prelude := blk_prelude b;
     blk_slots := filter (fun kv => slot_fits new_size kv.1 = true) (blk_slots b) |}.

(** [a->alloc(size, a->context)]: the block that comes back holds nothing
    yet; its prelude fields stand at 0 until they are stored. *)
Definition call_alloc (w : world) (aid : Z) (a : Allocator Ctx) (size : Z) : Z * world :=
  let '(p, c) := alloc a size (context a) in
  let fresh :=
    {| blk_size := size;
       blk_prelude := {| capacity := 0; length := 0; allocator := NULL |};
       blk_slots := ∅ |} in
  (p, {| heap := if p =? NULL then heap w else <[p := fresh]> (heap w);
         allocators := <[aid := with_context a c]> (allocators w);
         calls := calls w ++ [CallAlloc aid size p] |}).

(** [a->realloc(p, new_size, a->context)]: on failure the block at [p]
    stays as it was. *)
Definition call_realloc (w : world) (aid : Z) (a : Allocator Ctx) (p new_size : Z)
    : Z * world :=
  let '(q, c) := realloc a p new_size (context a) in
  (q, {| heap := if q =? NULL then heap w
                 else match heap w !! p with
                      | Some b => <[q := resized b new_size]> (delete p (heap w))
                      | None => heap w
                      end;
         allocators := <[aid := with_context a c]> (allocators w);
         calls := calls w ++ [CallRealloc aid p new_size q] |}).

(** [a->free(p, a->context)] *)
Definition call_free (w : world) (aid : Z) (a : Allocator Ctx) (p : Z) : world :=
  {| heap := delete p (heap w);
     allocators := <[aid := with_context a (free a p (context a))]> (allocators w);
     calls := calls w ++ [CallFree aid p] |}.

(** *** The two functions *)

Definition create_list (w : world) (stride capacity allocator : Z) : result (Z * world) :=
  let allocator := if allocator =? NULL then default_allocator else allocator in
  match allocators w !! allocator with
  | None => Undefined
  | Some a =>
      let size := wrap (sizeof_ListPrelude + wrap (stride * capacity)) in
      let '(prelude, w1) := call_alloc w allocator a size in
      if prelude =? NULL then Done (NULL, w1)
      else
        match store_capacity w1 prelude capacity with
        | None => Undefined
        | Some w2 =>
            match store_length w2 prelude 0 with
            | None => Undefined
            | Some w3 =>
                match store_allocator w3 prelude allocator with
                | None => Undefined
                | Some w4 => Done (prelude_end prelude, w4)
                end
            end
        end
  end.

Definition list_ensure_capacity (fuel : nat) (w : world) (list item_count item_size : Z)
    : result (Z * world) :=
  let prelude := list_prelude list in
  match load_prelude w prelude with
  | None => Undefined
  | Some b =>
      let h := blk_prelude b in
      let desired_capacity := wrap (length h + item_count) in
      if capacity h <? desired_capacity then
        match grow_loop fuel (wrap (capacity h * 2)) desired_capacity with
        | None => OutOfFuel
        | Some new_capacity =>
            let new_size := wrap (sizeof_ListPrelude + wrap (new_capacity * item_size)) in
            match allocators w !! allocator h with
            | None => Undefined
            | Some a =>
                let '(prelude', w1) := call_realloc w (allocator h) a prelude new_size in
                match store_capacity w1 prelude' new_capacity with
                | None => Undefined
                | Some w2 => Done (prelude_end prelude', w2)
                end
            end
        end
      else Done (prelude_end prelude, w)
  end.

(** *** The macros *)

(** [list_len(list)] and [list_cap(list)] *)
Definition list_len (w : world) (list : Z) : option Z :=
  match load_prelude w (list_prelude list) with
  | Some b => Some (length (blk_prelude b))
  | None => None
  end.

Definition list_cap (w : world) (list : Z) : option Z :=
  match load_prelude w (list_prelude list) with
  | Some b => Some (capacity (blk_prelude b))
  | None => None
  end.

(** [list_clear(list)] *)
Definition list_clear (w : world) (list : Z) : result world :=
  match store_length w (list_prelude list) 0 with
  | Some w' => Done w'
  | None => Undefined
  end.

(** [list_resize(list, desired)]: the list as reassigned, and the value of
    the macro, [&(list)[list_prelude(list)->length += (desired)]]; the
    compound assignment yields the length after the addition. *)
Definition list_resize (fuel : nat) (w : world) (list desired : Z)
    : result (Z * Z * world) :=
  match list_ensure_capacity fuel w list desired sizeof_T with
  | Done (list', w1) =>
      match load_prelude w1 (list_prelude list') with
      | Some b =>
          let n := wrap (length (blk_prelude b) + desired) in
          match store_length w1 (list_prelude list') n with
          | Some w2 => Done (list', slot_addr list' n, w2)
          | None => Undefined
          end
      | None => Undefined
      end
  | Undefined => Undefined
  | OutOfFuel => OutOfFuel
  end.

(** [list_append(list, item)], with [sizeof(item)] given as [item_size]:
    the list as reassigned, and the value of the macro,
    [&(list)[list_prelude(list)->length++]]; the postfix increment yields
    the length before it. *)
Definition list_append (fuel : nat) (w : world) (list item_size : Z) (item : T)
    : result (Z * Z * world) :=
  match list_ensure_capacity fuel w list 1 item_size with
  | Done (list', w1) =>
      match load_prelude w1 (list_prelude list') with
      | Some b =>
          let n := length (blk_prelude b) in
          match write_slot w1 list' n item with
          | Some w2 =>
              match store_length w2 (list_prelude list') (wrap (n + 1)) with
              | Some w3 => Done (list', slot_addr list' n, w3)
              | None => Undefined
              end
          | None => Undefined
          end
      | None => Undefined
      end
  | Undefined => Undefined
  | OutOfFuel => OutOfFuel
  end.

(** [list_remove_at(list, index)] *)
Definition list_remove_at (w : world) (list index : Z) : result world :=
  let h := list_prelude list in
  match load_prelude w h with
  | None => Undefined
  | Some b =>
      let n := length (blk_prelude b) in
      if index =? wrap (n - 1) then
        match store_length w h (wrap (n - 1)) with
        | Some w' => Done w'
        | None => Undefined
        end
      else if 1 <? n then
        match store_length w h (wrap (n - 1)) with
        | Some w1 =>
            match load_prelude w1 h with
            | Some b1 =>
                match memcpy_slot b1 index (wrap (n - 1)) with
                | Some b2 => Done (set_heap w1 (<[h := b2]> (heap w1)))
                | None => Undefined
                end
            | None => Undefined
            end
        | None => Undefined
        end
      else Done w
  end.

(** Modelled from the spec: the macro [array_header], which [list_pop_back]
    expands to and which the header does not define.  The spec's header
    lookup: "given any valid handle, the header is derivable by a fixed
    backward offset (immediately preceding the element buffer)". *)
Definition array_header (a : Z) : Z := a - sizeof_ListPrelude.

(** [#define list_pop_back(a) (array_header(a)->length -= 1)] *)
Definition list_pop_back (w : world) (a : Z) : result world :=
  match load_prelude w (array_header a) with
  | Some b =>
      match store_length w (array_header a) (wrap (length (blk_prelude b) - 1)) with
      | Some w' => Done w'
      | None => Undefined
      end
  | None => Undefined
  end.

(** [list_free(list)] *)
Definition list_free (w : world) (list : Z) : result world :=
  match load_prelude w (list_prelude list) with
  | Some b =>
      match allocators w !! allocator (blk_prelude b) with
      | Some a => Done (call_free w (allocator (blk_prelude b)) a (list_prelude list))
      | None => Undefined
      end
  | None => Undefined
  end.

End Engine.

(** [#define DEFAULT_LIST_CAPACITY 16] *)
Definition DEFAULT_LIST_CAPACITY : Z := 16.

Section Constructors.

Context {T Ctx : Type}.
Variable sizeof_T : Z.
Variable default_allocator : Z.

(** [list_new(T)] and [list_new_alloc(T, allocator)] *)
Definition list_new (w : World T Ctx) : result (Z * World T Ctx) :=
  create_list default_allocator w sizeof_T DEFAULT_LIST_CAPACITY NULL.

Definition list_new_alloc (w : World T Ctx) (allocator : Z) : result (Z * World T Ctx) :=
  create_list default_allocator w sizeof_T DEFAULT_LIST_CAPACITY allocator.

(** A run of appends, one [list_append(list, v)] per value, each value an
    expression of the element type, as in the loop of example.c. *)
Fixpoint append_all (fuel : nat) (w : World T Ctx) (list : Z) (vs : Datatypes.list T)
    : result (Z * World T Ctx) :=
  match vs with
  | [] => Done (list, w)
  | v :: vs' =>
      match list_append sizeof_T fuel w list sizeof_T v with
      | Done (list', _, w') => append_all fuel w' list' vs'
      | Undefined => Undefined
      | OutOfFuel => OutOfFuel
      end
  end.

End Constructors.

(** ** Blocks and properties that the statements speak of *)

Section Shapes.

Context {T Ctx : Type}.
Variable sizeof_T : Z.

(** The block of a list as [create_list] leaves it. *)
Definition created (size capacity0 aid : Z) : Block T :=
  {| blk_size := size;
     blk_prelude := {| capacity := capacity0; length := 0; allocator := aid |};
     blk_slots := ∅ |}.

(** The block of a list after [list_ensure_capacity] has had it
    reallocated to [new_size] bytes and stored [new_capacity]. *)
Definition grown (b : Block T) (new_size new_capacity : Z) : Block T :=
  set_prelude (resized sizeof_T b new_size)
    {| capacity := new_capacity; length := length (blk_prelude b);
       allocator := allocator (blk_prelude b) |}.

(** The block of a list after [item] has been written behind its last
    element and the length raised to [n]. *)
Definition appended (b : Block T) (n : Z) (item : T) : Block T :=
  {| blk_size := blk_size b;
     blk_prelude := {| capacity := capacity (blk_prelude b); length := n;
                       allocator := allocator (blk_prelude b) |};
     blk_slots := <[length (blk_prelude b) := item]> (blk_slots b) |}.

(** The block [b] holds the values [vs] in its leading slots. *)
Definition holds (b : Block T) (vs : Datatypes.list T) : Prop :=
  length (blk_prelude b) = Z.of_nat (List.length vs) /\
  forall (i : nat) (v : T), vs !! i = Some v -> blk_slots b !! Z.of_nat i = Some v.

(** The invariant of the prelude: [0 <= length <= capacity]. *)
Definition length_within_capacity (w : World T Ctx) (list : Z) : Prop :=
  exists b, load_prelude w (list_prelude list) = Some b /\
    0 <= length (blk_prelude b) <= capacity (blk_prelude b).

End Shapes.

(** ** Worlds for the examples *)

(** A bump allocator: its state is the next unused address, never null;
    every request is served there, so a reallocation always moves the
    block. *)
Definition bump_allocator (next : positive) : Allocator positive :=
  {| alloc := fun size c => (Z.pos c, c + Z.to_pos (size + 16))%positive;
     realloc := fun _ size c => (Z.pos c, c + Z.to_pos (size + 16))%positive;
     free := fun _ c => c;
     context := next |}.

(** An allocator that has run out of memory. *)
Definition exhausted_allocator : Allocator positive :=
  {| alloc := fun _ c => (NULL, c);
     realloc := fun _ _ c => (NULL, c);
     free := fun _ c => c;
     context := 1%positive |}.

(** The slots [0 .. n-1] holding the values [vs]. *)
Fixpoint slots_from (i : Z) (vs : Datatypes.list Z) : gmap Z Z :=
  match vs with
  | [] => ∅
  | v :: vs' => <[i := v]> (slots_from (i + 1) vs')
  end.

(** One list of [int] (4 bytes each) of capacity [cap] holding [vs], its
    block at address 1024, so its handle is 1056; its allocator [a] is the
    object at address 8. *)
Definition int_list_block (cap : Z) (vs : Datatypes.list Z) : Block Z :=
  {| blk_size := sizeof_ListPrelude + cap * 4;
     blk_prelude := {| capacity := cap; length := Z.of_nat (List.length vs);
                       allocator := 8 |};
     blk_slots := slots_from 0 vs |}.

Definition int_list_world (cap : Z) (vs : Datatypes.list Z) (a : Allocator positive) : World Z positive :=
  {| heap := {[ 1024 := int_list_block cap vs ]};
     allocators := {[ 8 := a ]};
     calls := [] |}.

Definition int_list : Z := 1056.

(** A world with no list yet, and the bump allocator as the default one. *)
Definition fresh_world : World Z positive :=
  {| heap := ∅; allocators := {[ 8 := bump_allocator 4096 ]}; calls := [] |}.

Definition twenty_values : Datatypes.list Z :=
  [3; 1; 4; 1; 5; 9; 2; 6; 5; 3; 5; 8; 9; 7; 9; 3; 2; 3; 8; 4].

Definition two_ints : World Z positive := int_list_world 16 [10; 20] (bump_allocator 4096).

Definition three_ints : World Z positive := int_list_world 16 [10; 20; 30] (bump_allocator 4096).

(** ** example.c *)

Section Example.

Context {Ctx : Type}.

(** The address of the static [default_allocator] object. *)
Variable default_allocator : Z.

(** [sizeof(int)] *)
Definition sizeof_int : Z := 4.

(** [for (size_t i = ...; i < list_len(list); i++) printf("Item %zu: %d\n", i, list[i]);]
    from index [i] on, with [todo] items left; the output is the sequence of
    the pairs printed. *)
Fixpoint print_loop (w : World Z Ctx) (list i : Z) (todo : nat)
    : result (Datatypes.list (Z * Z)) :=
  match todo with
  | O => Done []
  | S todo' =>
      match read_slot sizeof_int w list i with
      | None => Undefined
      | Some v =>
          match print_loop w list (i + 1) todo' with
          | Done out => Done ((i, v) :: out)
          | Undefined => Undefined
          | OutOfFuel => OutOfFuel
          end
      end
  end.

Definition print_items (w : World Z Ctx) (list : Z) : result (Datatypes.list (Z * Z)) :=
  match list_len w list with
  | Some n => print_loop w list 0 (Z.to_nat n)
  | None => Undefined
  end.

(** [for (size_t i = ...; i < 100; i++) list[i] = rand();] from index [i]
    on, the values that [rand] returns being [vs]. *)
Fixpoint fill_loop (w : World Z Ctx) (list i : Z) (vs : Datatypes.list Z)
    : result (World Z Ctx) :=
  match vs with
  | [] => Done w
  | v :: vs' =>
      match write_slot sizeof_int w list i v with
      | Some w' => fill_loop w' list (i + 1) vs'
      | None => Undefined
      end
  end.

(** [main]: [rand k] is what the k-th call of [rand()] returns; the result
    is the exit status, what was printed, and the world left behind. *)
Definition main (fuel : nat) (w : World Z Ctx) (rand : nat -> Z)
    : result (Z * Datatypes.list (Z * Z) * World Z Ctx) :=
  match list_new sizeof_int default_allocator w with
  | Done (list, w1) =>
    match append_all sizeof_int fuel w1 list (map rand (seq 0 100)) with
    | Done (list, w2) =>
      match print_items w2 list with
      | Done out1 =>
        match list_clear w2 list with
        | Done w3 =>
          match list_resize sizeof_int fuel w3 list 100 with
          | Done (list, _, w4) =>
            match fill_loop w4 list 0 (map rand (seq 100 100)) with
            | Done w5 =>
              match print_items w5 list with
              | Done out2 =>
                match list_free w5 list with
                | Done w6 => Done (0, out1 ++ out2, w6)
                | Undefined => Undefined
                | OutOfFuel => OutOfFuel
                end
              | Undefined => Undefined
              | OutOfFuel => OutOfFuel
              end
            | Undefined => Undefined
            | OutOfFuel => OutOfFuel
            end
          | Undefined => Undefined
          | OutOfFuel => OutOfFuel
          end
        | Undefined => Undefined
        | OutOfFuel => OutOfFuel
        end
      | Undefined => Undefined
      | OutOfFuel => OutOfFuel
      end
    | Undefined => Undefined
    | OutOfFuel => OutOfFuel
    end
  | Undefined => Undefined
  | OutOfFuel => OutOfFuel
  end.

End Example.

(** A call made to the allocator at address [aid]; a call of its realloc. *)
Definition call_of (aid : Z) (c : Call) : Prop :=
  match c with
  | CallAlloc a _ _ => a = aid
  | CallRealloc a _ _ _ => a = aid
  | CallFree a _ => a = aid
  end.

Definition realloc_of (aid : Z) (c : Call) : Prop :=
  match c with
  | CallRealloc a _ _ _ => a = aid
  | _ => False
  end.

(** The list [vs] after a swap-remove at index [i]: the last value takes
    the place of the one at [i], unless that one is the last. *)
Definition swap_removed {A : Type} (vs : Datatypes.list A) (i : nat) : Datatypes.list A :=
  match last vs with
  | Some y =>
      if (i =? List.length vs - 1)%nat then removelast vs
      else <[i := y]> (removelast vs)
  | None => vs
  end.

(** Two allocator records with the same three functions: the same
    allocator, in another state. *)
Definition same_functions {Ctx : Type} (a a' : Allocator Ctx) : Prop :=
  alloc a' = alloc a /\ realloc a' = realloc a /\ free a' = free a.

Section Handles.

Context {T Ctx : Type}.
Variable sizeof_T : Z.

(** A handle whose prelude is not in a live block: every accessor finds
    nothing and every operation is undefined behaviour. *)
Definition unusable (w : World T Ctx) (list : Z) : Prop :=
  list_len w list = None /\
  list_cap w list = None /\
  (forall i, read_slot sizeof_T w list i = None) /\
  (forall i v, write_slot sizeof_T w list i v = None) /\
  list_clear w list = Undefined /\
  (forall fuel item_count item_size,
     list_ensure_capacity sizeof_T fuel w list item_count item_size = Undefined) /\
  (forall fuel item_size item,
     list_append sizeof_T fuel w list item_size item = Undefined) /\
  (forall fuel desired, list_resize sizeof_T fuel w list desired = Undefined) /\
  (forall index, list_remove_at sizeof_T w list index = Undefined) /\
  list_free w list = Undefined.

End Handles.

(** The lines that the print loop of example.c writes for the values [vs]
    at the indices from [i] on: one pair of index and value per line. *)
Fixpoint items_from (i : Z) (vs : Datatypes.list Z) : Datatypes.list (Z * Z) :=
  match vs with
  | [] => []
  | v :: vs' => (i, v) :: items_from (i + 1) vs'
  end.

(** ** Arithmetic of [size_t] *)

Lemma size_modulus_pow : size_modulus = 2 ^ 64.
Proof. reflexivity. Qed.

Lemma wrap_small (z : Z) : 0 <= z < size_modulus -> wrap z = z.
Proof. intros Hz. unfold wrap. now apply Z.mod_small. Qed.

Lemma wrap_range (z : Z) : 0 <= wrap z < size_modulus.
Proof. unfold wrap. apply Z.mod_pos_bound. reflexivity. Qed.

(** ** The doubling loop *)

Lemma grow_loop_stuck_at_zero (fuel : nat) (d : Z) :
  0 < d -> grow_loop fuel 0 d = None.
Proof.
  intros Hd. induction fuel as [|fuel IH]; simpl; [reflexivity|].
  destruct (0 <? d) eqn:E; [exact IH|].
  apply Z.ltb_ge in E. lia.
Qed.

Lemma grow_loop_exit (fuel : nat) : forall x d nc,
  grow_loop fuel x d = Some nc -> d <= nc.
Proof.
  induction fuel as [|fuel IH]; simpl; intros x d nc H; [discriminate|].
  destruct (x <? d) eqn:E.
  - eapply IH; eassumption.
  - apply Z.ltb_ge in E. congruence.
Qed.

Lemma grow_loop_range (fuel : nat) : forall x d nc,
  0 <= x < size_modulus -> grow_loop fuel x d = Some nc -> 0 <= nc < size_modulus.
Proof.
  induction fuel as [|fuel IH]; simpl; intros x d nc Hx H; [discriminate|].
  destruct (x <? d).
  - eapply IH; [apply wrap_range | eassumption].
  - congruence.
Qed.

(** While the doublings stay below [size_modulus], the loop stops at the
    first of them that reaches the demand. *)
Lemma grow_loop_search (k0 : nat) : forall (fuel : nat) (x d : Z),
  0 < x -> d <= x * 2 ^ Z.of_nat k0 -> x * 2 ^ Z.of_nat k0 < size_modulus ->
  (k0 < fuel)%nat ->
  exists k : nat,
    (k <= k0)%nat /\
    grow_loop fuel x d = Some (x * 2 ^ Z.of_nat k) /\
    d <= x * 2 ^ Z.of_nat k /\
    (forall j : nat, (j < k)%nat -> x * 2 ^ Z.of_nat j < d).
Proof.
  induction k0 as [|k0 IH]; intros fuel x d Hx Hd Hm Hf.
  - exists O. destruct fuel as [|fuel]; [lia|]. simpl in *.
    rewrite Z.mul_1_r in *.
    destruct (x <? d) eqn:E; [apply Z.ltb_lt in E; lia|].
    repeat split; try lia.
  - destruct fuel as [|fuel]; [lia|].
    destruct (Z.ltb_spec x d) as [Hlt|Hge].
    + rewrite Nat2Z.inj_succ, Z.pow_succ_r in Hd, Hm by lia.
      assert (H2 : 0 < 2 ^ Z.of_nat k0) by (apply Z.pow_pos_nonneg; lia).
      destruct (IH fuel (x * 2) d) as (k & Hk & Hg & Hdk & Hmin); try lia.
      exists (S k). split; [lia|].
      rewrite Nat2Z.inj_succ, Z.pow_succ_r by lia.
      replace (x * (2 * 2 ^ Z.of_nat k)) with (x * 2 * 2 ^ Z.of_nat k) by lia.
      simpl. destruct (Z.ltb_spec x d); [|lia].
      rewrite wrap_small by nia.
      repeat split; try assumption.
      intros [|j] Hj.
      * simpl. lia.
      * rewrite Nat2Z.inj_succ, Z.pow_succ_r by lia.
        replace (x * (2 * 2 ^ Z.of_nat j)) with (x * 2 * 2 ^ Z.of_nat j) by lia.
        apply Hmin. lia.
    + exists O. simpl. destruct (Z.ltb_spec x d); [lia|].
      rewrite Z.mul_1_r. repeat split; try lia.
Qed.

(** ** Memory facts *)

Section Memory.

Context {T Ctx : Type}.
Variable sizeof_T : Z.

Implicit Types (w : World T Ctx) (b : Block T).

Lemma prelude_end_list_prelude (list : Z) : prelude_end (list_prelude list) = list.
Proof. unfold prelude_end, list_prelude. lia. Qed.

Lemma list_prelude_prelude_end (p : Z) : list_prelude (prelude_end p) = p.
Proof. unfold prelude_end, list_prelude. lia. Qed.

Lemma load_prelude_Some w p b :
  load_prelude w p = Some b <->
  p <> NULL /\ heap w !! p = Some b /\ sizeof_ListPrelude <= blk_size b.
Proof.
  unfold load_prelude.
  destruct (Z.eqb_spec p NULL) as [->|Hp].
  - split; [discriminate | intros [[] _]; reflexivity].
  - destruct (heap w !! p) as [b'|]; [|split; [discriminate | intros (_ & [=] & _)]].
    destruct (Z.leb_spec sizeof_ListPrelude (blk_size b')).
    + split; [intros [= ->]; auto | intros (_ & [= ->] & _); reflexivity].
    + split; [discriminate | intros (_ & [= ->] & ?); lia].
Qed.

Lemma load_prelude_NULL w : load_prelude w NULL = None.
Proof. reflexivity. Qed.

(** Reading back the block just stored at [p]. *)
Lemma load_prelude_insert w hp p b :
  p <> NULL -> sizeof_ListPrelude <= blk_size b ->
  load_prelude (set_heap w (<[p := b]> hp)) p = Some b.
Proof.
  intros Hp Hb. apply load_prelude_Some. simpl.
  rewrite lookup_insert_eq. auto.
Qed.

Lemma store_length_Some w p b v :
  load_prelude w p = Some b ->
  store_length w p v = Some (set_heap w (<[p := set_prelude b
    {| capacity := capacity (blk_prelude b); length := v;
       allocator := allocator (blk_prelude b) |}]> (heap w))).
Proof. intros H. unfold store_length. now rewrite H. Qed.

Lemma store_capacity_Some w p b v :
  load_prelude w p = Some b ->
  store_capacity w p v = Some (set_heap w (<[p := set_prelude b
    {| capacity := v; length := length (blk_prelude b);
       allocator := allocator (blk_prelude b) |}]> (heap w))).
Proof. intros H. unfold store_capacity. now rewrite H. Qed.

Lemma store_allocator_Some w p b v :
  load_prelude w p = Some b ->
  store_allocator w p v = Some (set_heap w (<[p := set_prelude b
    {| capacity := capacity (blk_prelude b); length := length (blk_prelude b);
       allocator := v |}]> (heap w))).
Proof. intros H. unfold store_allocator. now rewrite H. Qed.

(** Growing a block keeps every slot that was inside it. *)
Lemma resized_lookup b new_size i :
  slot_fits sizeof_T new_size i = true ->
  blk_slots (resized sizeof_T b new_size) !! i = blk_slots b !! i.
Proof.
  intros Hfit. simpl.
  destruct (blk_slots b !! i) as [x|] eqn:E.
  - apply map_lookup_filter_Some. auto.
  - apply map_lookup_filter_None. left. exact E.
Qed.

Lemma resized_lookup_Some b new_size i x :
  blk_slots (resized sizeof_T b new_size) !! i = Some x -> blk_slots b !! i = Some x.
Proof. simpl. intros H. now apply map_lookup_filter_Some in H. Qed.

Lemma slot_fits_iff size i :
  slot_fits sizeof_T size i = true <->
  0 <= i /\ sizeof_ListPrelude + (i + 1) * sizeof_T <= size.
Proof.
  unfold slot_fits. rewrite andb_true_iff, Z.leb_le, Z.leb_le. reflexivity.
Qed.

(** *** What a completed [list_ensure_capacity] did *)

Lemma ensure_capacity_keep fuel w list b item_count item_size :
  load_prelude w (list_prelude list) = Some b ->
  wrap (length (blk_prelude b) + item_count) <= capacity (blk_prelude b) ->
  list_ensure_capacity sizeof_T fuel w list item_count item_size = Done (list, w).
Proof.
  intros Hb Hle. unfold list_ensure_capacity. rewrite Hb.
  destruct (Z.ltb_spec (capacity (blk_prelude b))
              (wrap (length (blk_prelude b) + item_count))); [lia|].
  now rewrite prelude_end_list_prelude.
Qed.

Lemma ensure_capacity_grow fuel w list b item_count item_size nc a q c :
  let h := blk_prelude b in
  let new_size := wrap (sizeof_ListPrelude + wrap (nc * item_size)) in
  load_prelude w (list_prelude list) = Some b ->
  capacity h < wrap (length h + item_count) ->
  grow_loop fuel (wrap (capacity h * 2)) (wrap (length h + item_count)) = Some nc ->
  allocators w !! allocator h = Some a ->
  realloc a (list_prelude list) new_size (context a) = (q, c) ->
  q <> NULL -> sizeof_ListPrelude <= new_size ->
  exists w',
    list_ensure_capacity sizeof_T fuel w list item_count item_size
      = Done (prelude_end q, w') /\
    load_prelude w' q = Some (grown sizeof_T b new_size nc) /\
    allocators w' = <[allocator h := with_context a c]> (allocators w) /\
    calls w' = calls w ++ [CallRealloc (allocator h) (list_prelude list) new_size q].
Proof.
  intros h new_size Hb Hlt Hg Ha Hr Hq Hsz.
  unfold list_ensure_capacity. rewrite Hb. fold h.
  destruct (Z.ltb_spec (capacity h) (wrap (length h + item_count))); [|lia].
  rewrite Hg, Ha. unfold call_realloc. fold new_size. rewrite Hr.
  destruct (Z.eqb_spec q NULL) as [|_]; [contradiction|].
  apply load_prelude_Some in Hb as (_ & Hhp & _). rewrite Hhp.
  erewrite store_capacity_Some
    by (apply load_prelude_Some; simpl; rewrite lookup_insert_eq; auto).
  eexists. split; [reflexivity|]. simpl. split; [|auto].
  apply load_prelude_Some. simpl. rewrite lookup_insert_eq. auto.
Qed.

Lemma ensure_capacity_Done fuel w list item_count item_size list' w' :
  list_ensure_capacity sizeof_T fuel w list item_count item_size = Done (list', w') ->
  exists b, load_prelude w (list_prelude list) = Some b /\
    let h := blk_prelude b in
    let desired := wrap (length h + item_count) in
    (desired <= capacity h /\ list' = list /\ w' = w) \/
    (capacity h < desired /\
     exists nc a q c,
       let new_size := wrap (sizeof_ListPrelude + wrap (nc * item_size)) in
       grow_loop fuel (wrap (capacity h * 2)) desired = Some nc /\
       allocators w !! allocator h = Some a /\
       realloc a (list_prelude list) new_size (context a) = (q, c) /\
       q <> NULL /\ sizeof_ListPrelude <= new_size /\
       list' = prelude_end q /\
       load_prelude w' q = Some (grown sizeof_T b new_size nc) /\
       allocators w' = <[allocator h := with_context a c]> (allocators w) /\
       calls w' = calls w ++ [CallRealloc (allocator h) (list_prelude list) new_size q]).
Proof.
  intros H. unfold list_ensure_capacity in H.
  destruct (load_prelude w (list_prelude list)) as [b|] eqn:Hb; [|discriminate].
  exists b. split; [reflexivity|]. cbv zeta.
  set (h := blk_prelude b) in *.
  destruct (Z.ltb_spec (capacity h) (wrap (length h + item_count))) as [Hlt|Hge].
  - right. split; [assumption|].
    destruct (grow_loop _ _ _) as [nc|] eqn:Hg; [|discriminate].
    destruct (allocators w !! allocator h) as [a|] eqn:Ha; [|discriminate].
    unfold call_realloc in H.
    destruct (realloc a _ _ _) as [q c] eqn:Hr.
    destruct (store_capacity _ q nc) as [w2|] eqn:Hs; [|discriminate].
    injection H as <- <-.
    unfold store_capacity in Hs.
    destruct (load_prelude _ q) as [b1|] eqn:Hb1; [|discriminate].
    injection Hs as <-.
    apply load_prelude_Some in Hb1 as (Hq & Hb1 & Hsz). simpl in Hb1.
    destruct (Z.eqb_spec q NULL) as [|_]; [contradiction|].
    apply load_prelude_Some in Hb as (_ & Hhp & _). rewrite Hhp in Hb1.
    rewrite lookup_insert_eq in Hb1. injection Hb1 as <-. simpl in Hsz.
    exists nc, a, q, c. cbv zeta. repeat split; auto.
    apply load_prelude_Some. simpl. rewrite lookup_insert_eq. auto.
  - left. injection H as <- <-. rewrite prelude_end_list_prelude. auto.
Qed.

End Memory.

(** ** The code at work on small lists *)

Example int_list_world_load :
  load_prelude (int_list_world 16 [10; 20] (bump_allocator 4096)) (list_prelude int_list)
  = Some (int_list_block 16 [10; 20]).
Proof. reflexivity. Qed.

Example int_list_world_read :
  read_slot 4 (int_list_world 16 [10; 20] (bump_allocator 4096)) int_list 1 = Some 20.
Proof. reflexivity. Qed.

Example int_list_world_grow :
  exists w', list_ensure_capacity 4 64 (int_list_world 2 [10; 20] (bump_allocator 4096)) int_list 1 4
    = Done (4096 + 32, w') /\ list_cap w' (4096 + 32) = Some 4 /\
    read_slot 4 w' (4096 + 32) 1 = Some 20.
Proof. eexists. split; [vm_compute; reflexivity|]. split; vm_compute; reflexivity. Qed.

(** [create_list] tests the pointer that [alloc] returned, and hands a
    failed allocation on as a null list. *)
Example create_list_reports_failure :
  exists w',
    create_list 8 (int_list_world 2 [10; 20] exhausted_allocator) 4 16 NULL
    = Done (NULL, w').
Proof. eexists. vm_compute. reflexivity. Qed.

(** The run of example.c: a hundred appends to [list_new(int)] grow the
    list three times, 16 to 32 to 64 to 128. *)
Example hundred_appends :
  exists l0 w0 l w,
    list_new 4 8 fresh_world = Done (l0, w0) /\
    append_all 4 64 w0 l0 (map Z.of_nat (seq 0 100)) = Done (l, w) /\
    list_len w l = Some 100 /\ list_cap w l = Some 128 /\
    read_slot 4 w l 0 = Some 0 /\ read_slot 4 w l 99 = Some 99 /\
    List.length (calls w) = 4%nat.
Proof.
  eexists _, _, _, _. split; [vm_compute; reflexivity|].
  split; [vm_compute; reflexivity|]. repeat split; vm_compute; reflexivity.
Qed.

(** Clearing that list and resizing it by a hundred calls the allocator no
    further, and the slots written by index read back. *)
Example clear_then_resize :
  exists p w1 w2 w3,
    list_clear (int_list_world 128 [1; 2; 3] (bump_allocator 4096)) int_list = Done w1 /\
    list_resize 4 64 w1 int_list 100 = Done (int_list, p, w2) /\
    calls w2 = [] /\ list_len w2 int_list = Some 100 /\
    write_slot 4 w2 int_list 99 7 = Some w3 /\
    read_slot 4 w3 int_list 99 = Some 7.
Proof.
  eexists _, _, _, _. split; [vm_compute; reflexivity|].
  split; [vm_compute; reflexivity|]. split; [vm_compute; reflexivity|].
  split; [vm_compute; reflexivity|]. split; vm_compute; reflexivity.
Qed.

(** ** Capacity growth *)

(** Past the top bit the doubling wraps to zero and stays there. *)
Lemma grow_loop_overflows (j : nat) : forall (fuel : nat) (x d : Z),
  0 < x -> x * 2 ^ Z.of_nat (S j) = size_modulus -> size_modulus / 2 < d ->
  grow_loop fuel x d = None.
Proof.
  induction j as [|j IH]; intros fuel x d Hx Hm Hd;
    (destruct fuel as [|fuel]; [reflexivity|]).
  - change (2 ^ Z.of_nat 1) with 2 in Hm.
    change (size_modulus / 2) with 9223372036854775808 in Hd.
    unfold size_modulus in Hm. simpl.
    destruct (Z.ltb_spec x d); [|lia].
    replace (x * 2) with size_modulus by (unfold size_modulus; lia).
    change (wrap size_modulus) with 0. apply grow_loop_stuck_at_zero. lia.
  - rewrite Nat2Z.inj_succ, Z.pow_succ_r in Hm by lia.
    assert (H2 : 2 <= 2 ^ Z.of_nat (S j)).
    { rewrite Nat2Z.inj_succ, Z.pow_succ_r by lia.
      assert (0 < 2 ^ Z.of_nat j) by (apply Z.pow_pos_nonneg; lia). lia. }
    change (size_modulus / 2) with 9223372036854775808 in Hd.
    unfold size_modulus in Hm. simpl.
    destruct (Z.ltb_spec x d); [|nia].
    rewrite wrap_small by (unfold size_modulus; nia).
    apply IH; [lia | unfold size_modulus; lia |].
    change (size_modulus / 2) with 9223372036854775808. lia.
Qed.

(** A capacity of at least one that can be doubled up to the demand without
    leaving [size_t] is doubled in fewer than 64 steps. *)
Lemma pow2_fits_steps (c : Z) (k : nat) :
  1 <= c -> c * 2 ^ Z.of_nat k < size_modulus -> (k < 64)%nat.
Proof.
  intros Hc Hm. destruct (Nat.lt_ge_cases k 64) as [|Hk]; [assumption|exfalso].
  assert (2 ^ 64 <= 2 ^ Z.of_nat k) by (apply Z.pow_le_mono_r; lia).
  rewrite <- size_modulus_pow in *. nia.
Qed.

Lemma grow_loop_doubles (c desired : Z) (k0 fuel : nat) :
  1 <= c -> c < desired -> desired <= c * 2 ^ Z.of_nat k0 ->
  c * 2 ^ Z.of_nat k0 < size_modulus -> (64 <= fuel)%nat ->
  exists k : nat,
    grow_loop fuel (wrap (c * 2)) desired = Some (c * 2 ^ Z.of_nat k) /\
    (k <= k0)%nat /\
    desired <= c * 2 ^ Z.of_nat k /\
    (forall j : nat, desired <= c * 2 ^ Z.of_nat j -> c * 2 ^ Z.of_nat k <= c * 2 ^ Z.of_nat j).
Proof.
  intros Hc Hlt Hd Hm Hf.
  pose proof (pow2_fits_steps c k0 Hc Hm) as Hk0.
  destruct k0 as [|k0]; [rewrite Z.mul_1_r in Hd; lia|].
  rewrite Nat2Z.inj_succ, Z.pow_succ_r in Hd, Hm by lia.
  assert (H2 : 0 < 2 ^ Z.of_nat k0) by (apply Z.pow_pos_nonneg; lia).
  rewrite wrap_small by nia.
  destruct (grow_loop_search k0 fuel (c * 2) desired) as (k & Hk & Hg & Hdk & Hmin);
    try lia.
  exists (S k).
  rewrite Nat2Z.inj_succ, Z.pow_succ_r by lia.
  replace (c * (2 * 2 ^ Z.of_nat k)) with (c * 2 * 2 ^ Z.of_nat k) by lia.
  repeat split; try assumption; try lia.
  intros j Hj.
  destruct j as [|j]; [rewrite Z.mul_1_r in Hj; lia|].
  rewrite Nat2Z.inj_succ, Z.pow_succ_r in * by lia.
  replace (c * (2 * 2 ^ Z.of_nat j)) with (c * 2 * 2 ^ Z.of_nat j) in * by lia.
  destruct (Nat.lt_ge_cases j k) as [Hjk|Hjk].
  - specialize (Hmin j Hjk). lia.
  - assert (2 ^ Z.of_nat k <= 2 ^ Z.of_nat j) by (apply Z.pow_le_mono_r; lia). nia.
Qed.

Section Growth.

Context {T Ctx : Type}.
Variable sizeof_T : Z.

Implicit Types (w : World T Ctx) (b : Block T).

Lemma ensure_capacity_OutOfFuel fuel w list b item_count item_size :
  load_prelude w (list_prelude list) = Some b ->
  capacity (blk_prelude b) < wrap (length (blk_prelude b) + item_count) ->
  grow_loop fuel (wrap (capacity (blk_prelude b) * 2))
    (wrap (length (blk_prelude b) + item_count)) = None ->
  list_ensure_capacity sizeof_T fuel w list item_count item_size = OutOfFuel.
Proof.
  intros Hb Hlt Hg. unfold list_ensure_capacity. rewrite Hb.
  destruct (Z.ltb_spec (capacity (blk_prelude b))
    (wrap (length (blk_prelude b) + item_count))); [|lia].
  now rewrite Hg.
Qed.

(** C7, as amended: for every list whose capacity is at least 1 and every
    additional count for which some doubling [capacity * 2^k] of the
    capacity reaches [length + count] while still below 2^64, the doubling
    loop of [list_ensure_capacity] terminates: with 64 units of fuel or
    more the call never runs out of fuel, and when the capacity is short
    of the demand the loop hands back a new capacity. *)
Theorem ensure_capacity_loop_terminates
    (fuel : nat) w (list item_count item_size : Z) b (k : nat) :
  load_prelude w (list_prelude list) = Some b ->
  1 <= capacity (blk_prelude b) ->
  0 <= length (blk_prelude b) -> 0 <= item_count ->
  length (blk_prelude b) + item_count <= capacity (blk_prelude b) * 2 ^ Z.of_nat k ->
  capacity (blk_prelude b) * 2 ^ Z.of_nat k < size_modulus ->
  (64 <= fuel)%nat ->
  list_ensure_capacity sizeof_T fuel w list item_count item_size <> OutOfFuel /\
  (capacity (blk_prelude b) < length (blk_prelude b) + item_count ->
   exists new_capacity,
     grow_loop fuel (wrap (capacity (blk_prelude b) * 2))
       (wrap (length (blk_prelude b) + item_count)) = Some new_capacity).
Proof.
  intros Hb Hc Hl Hn Hk Hm Hf.
  set (h := blk_prelude b) in *.
  assert (Hw : wrap (length h + item_count) = length h + item_count)
    by (apply wrap_small; lia).
  assert (Hloop : capacity h < length h + item_count ->
    exists nc, grow_loop fuel (wrap (capacity h * 2)) (wrap (length h + item_count)) = Some nc).
  { intros Hlt. rewrite Hw.
    destruct (grow_loop_doubles (capacity h) (length h + item_count) k fuel)
      as (k' & Hg & _); try assumption.
    eauto. }
  split; [|exact Hloop].
  unfold list_ensure_capacity. rewrite Hb. fold h.
  destruct (Z.ltb_spec (capacity h) (wrap (length h + item_count))) as [Hlt|Hge];
    [|discriminate].
  destruct Hloop as [nc ->]; [lia|].
  destruct (allocators w !! allocator h); [|discriminate].
  destruct (call_realloc _ _ _ _ _ _) as [q w1].
  destruct (store_capacity w1 q nc); discriminate.
Qed.

End Growth.

(** The empty capacity 16 list of [list_new(int)], asked for room for 100
    more elements: 16, 32, 64, 128. *)
Lemma ensure_capacity_loop_terminates_witness :
  list_ensure_capacity 4 64 (int_list_world 16 [] (bump_allocator 4096)) int_list 100 4
    <> OutOfFuel /\
  exists new_capacity,
    grow_loop 64 (wrap (16 * 2)) (wrap (0 + 100)) = Some new_capacity.
Proof.
  destruct (@ensure_capacity_loop_terminates Z positive 4 64
    (int_list_world 16 [] (bump_allocator 4096)) int_list 100 4 (int_list_block 16 []) 3)
    as [Hrun Hloop]; try reflexivity; try (simpl; lia).
  split; [exact Hrun | apply Hloop; simpl; lia].
Defined.

(** C7 as stated fails: the capacity is 16, yet with an additional count of
    [2^63 + 1] the doubling passes 2^63, wraps to 0 and never reaches the
    demand, whatever the fuel. *)
Lemma ensure_capacity_loop_diverges :
  ~ exists fuel : nat,
      list_ensure_capacity 4 fuel (int_list_world 16 [] (bump_allocator 4096)) int_list
        9223372036854775809 4 <> OutOfFuel.
Proof.
  intros [fuel H]. apply H.
  eapply ensure_capacity_OutOfFuel; [reflexivity | reflexivity |].
  apply (grow_loop_overflows 58); [reflexivity | reflexivity | reflexivity].
Qed.

Section GrowthResults.

Context {T Ctx : Type}.
Variable sizeof_T : Z.

Implicit Types (w : World T Ctx) (b : Block T).

Lemma list_cap_at w q b :
  load_prelude w q = Some b -> list_cap w (prelude_end q) = Some (capacity (blk_prelude b)).
Proof. intros H. unfold list_cap. now rewrite list_prelude_prelude_end, H. Qed.

Lemma list_len_at w q b :
  load_prelude w q = Some b -> list_len w (prelude_end q) = Some (length (blk_prelude b)).
Proof. intros H. unfold list_len. now rewrite list_prelude_prelude_end, H. Qed.

(** C3, as amended: with capacity [c], length [n] and additional count [d],
    if [n + d <= c] the call returns the same handle and leaves the world,
    so the capacity and the allocator's record of calls, as they were;
    otherwise, when [c] is at least 1, some doubling [c * 2^k] reaches
    [n + d] with the byte size of the block still below 2^64, and the
    allocator's realloc does not fail, the call completes and the resulting
    capacity is the smallest [c * 2^j] that is at least [n + d]. *)
Theorem ensure_capacity_doubling
    (fuel : nat) w (list item_count item_size : Z) b :
  let c := capacity (blk_prelude b) in
  let n := length (blk_prelude b) in
  load_prelude w (list_prelude list) = Some b ->
  0 <= n -> c < size_modulus -> 0 <= item_count ->
  (n + item_count <= c ->
   list_ensure_capacity sizeof_T fuel w list item_count item_size = Done (list, w)) /\
  (forall (k : nat) (a : Allocator Ctx),
   c < n + item_count -> 1 <= c -> 0 < item_size ->
   n + item_count <= c * 2 ^ Z.of_nat k ->
   sizeof_ListPrelude + c * 2 ^ Z.of_nat k * item_size < size_modulus ->
   allocators w !! allocator (blk_prelude b) = Some a ->
   (forall size, (realloc a (list_prelude list) size (context a)).1 <> NULL) ->
   (64 <= fuel)%nat ->
   exists list' w' new_capacity,
     list_ensure_capacity sizeof_T fuel w list item_count item_size = Done (list', w') /\
     list_cap w' list' = Some new_capacity /\
     n + item_count <= new_capacity /\
     (exists j : nat, new_capacity = c * 2 ^ Z.of_nat j) /\
     (forall j : nat, n + item_count <= c * 2 ^ Z.of_nat j ->
                      new_capacity <= c * 2 ^ Z.of_nat j)).
Proof.
  intros c n Hb Hn Hc Hd. split.
  - intros Hle. eapply ensure_capacity_keep; [eassumption|].
    fold n c. rewrite wrap_small; lia.
  - intros k a Hlt Hc1 Hsz Hk Hfit Ha Hre Hf.
    assert (H2 : 0 < 2 ^ Z.of_nat k) by (apply Z.pow_pos_nonneg; lia).
    assert (Hm : c * 2 ^ Z.of_nat k < size_modulus).
    { unfold sizeof_ListPrelude in Hfit. nia. }
    assert (Hw : wrap (n + item_count) = n + item_count)
      by (apply wrap_small; lia).
    destruct (grow_loop_doubles c (n + item_count) k fuel)
      as (j & Hg & Hjk & Hdj & Hmin); try assumption.
    set (nc := c * 2 ^ Z.of_nat j) in *.
    assert (Hnc : nc <= c * 2 ^ Z.of_nat k).
    { apply Hmin. assumption. }
    set (new_size := wrap (sizeof_ListPrelude + wrap (nc * item_size))).
    assert (Hns : new_size = sizeof_ListPrelude + nc * item_size).
    { unfold new_size, sizeof_ListPrelude in *.
      rewrite (wrap_small (nc * item_size)) by nia. apply wrap_small. nia. }
    destruct (realloc a (list_prelude list) new_size (context a)) as [q c'] eqn:Hr.
    specialize (Hre new_size). rewrite Hr in Hre. simpl in Hre.
    destruct (ensure_capacity_grow sizeof_T fuel w list b item_count item_size nc a q c')
      as (w' & Hrun & Hload & _); try assumption.
    + fold n c. lia.
    + fold n c. rewrite Hw. exact Hg.
    + fold new_size. rewrite Hns. unfold sizeof_ListPrelude. nia.
    + exists (prelude_end q), w', nc. split; [exact Hrun|].
      split; [now rewrite (list_cap_at _ _ _ Hload)|].
      split; [assumption|]. split; [now exists j | exact Hmin].
Qed.

(** C10, as amended: a call [list_ensure_capacity(list, d, sizeof(T))]
    that returns never changes the length, and when the byte size of the
    block it returns, header plus capacity times element size, is below
    2^64, every live element, at index 0 to length - 1, reads through the
    returned handle as it read before the call, whether or not the block
    was reallocated. *)
Theorem ensure_capacity_preserves_elements
    (fuel : nat) w (list item_count : Z) b list' w' :
  load_prelude w (list_prelude list) = Some b ->
  0 < sizeof_T ->
  0 <= length (blk_prelude b) <= capacity (blk_prelude b) ->
  sizeof_ListPrelude + capacity (blk_prelude b) * sizeof_T <= blk_size b ->
  list_ensure_capacity sizeof_T fuel w list item_count sizeof_T = Done (list', w') ->
  list_len w' list' = Some (length (blk_prelude b)) /\
  (forall new_capacity,
     list_cap w' list' = Some new_capacity ->
     sizeof_ListPrelude + new_capacity * sizeof_T < size_modulus ->
     forall i, 0 <= i < length (blk_prelude b) ->
       read_slot sizeof_T w' list' i = read_slot sizeof_T w list i).
Proof.
  intros Hb Hs Hlen Hsize Hrun.
  apply ensure_capacity_Done in Hrun as (b0 & Hb0 & Hcase).
  rewrite Hb in Hb0. injection Hb0 as <-. cbv zeta in Hcase.
  destruct Hcase as [(_ & -> & ->) | (Hlt & nc & a & q & c' & Hg & _ & _ & _ & Hns & -> & Hload & _)].
  - split; [unfold list_len; now rewrite Hb | reflexivity].
  - split; [now rewrite (list_len_at _ _ _ Hload)|].
    intros nc' Hcap Hfit i Hi.
    rewrite (list_cap_at _ _ _ Hload) in Hcap. simpl in Hcap. injection Hcap as <-.
    pose proof (grow_loop_exit _ _ _ _ Hg) as Hexit.
    pose proof (grow_loop_range _ _ _ _ (wrap_range _) Hg) as Hrange.
    unfold read_slot. rewrite list_prelude_prelude_end, Hload, Hb.
    set (new_size := wrap (sizeof_ListPrelude + wrap (nc * sizeof_T))) in *.
    assert (Hnew : new_size = sizeof_ListPrelude + nc * sizeof_T).
    { unfold new_size, sizeof_ListPrelude in *.
      rewrite (wrap_small (nc * sizeof_T)) by nia. apply wrap_small. nia. }
    assert (Hin : slot_fits sizeof_T new_size i = true).
    { apply slot_fits_iff. rewrite Hnew. unfold sizeof_ListPrelude. nia. }
    assert (Hin0 : slot_fits sizeof_T (blk_size b) i = true).
    { apply slot_fits_iff. unfold sizeof_ListPrelude in *. nia. }
    simpl. rewrite Hin, Hin0.
    apply (resized_lookup sizeof_T b new_size i Hin).
Qed.

(** C1: when the allocator's realloc returns [NULL] in a call that has to
    grow the list, [list_ensure_capacity] does not report the failure: it
    stores the new capacity through the null prelude pointer, which is
    undefined behaviour, where [create_list] tests the pointer it got. *)
Theorem ensure_capacity_realloc_failure
    (fuel : nat) w (list item_count item_size : Z) b new_capacity a :
  let h := blk_prelude b in
  load_prelude w (list_prelude list) = Some b ->
  capacity h < wrap (length h + item_count) ->
  grow_loop fuel (wrap (capacity h * 2)) (wrap (length h + item_count))
    = Some new_capacity ->
  allocators w !! allocator h = Some a ->
  (realloc a (list_prelude list)
     (wrap (sizeof_ListPrelude + wrap (new_capacity * item_size))) (context a)).1 = NULL ->
  list_ensure_capacity sizeof_T fuel w list item_count item_size = Undefined.
Proof.
  intros h Hb Hlt Hg Ha Hr.
  unfold list_ensure_capacity. rewrite Hb. fold h.
  destruct (Z.ltb_spec (capacity h) (wrap (length h + item_count))); [|lia].
  rewrite Hg, Ha. unfold call_realloc.
  destruct (realloc a _ _ _) as [q c'] eqn:E. simpl in Hr. subst q.
  reflexivity.
Qed.

End GrowthResults.

Lemma ensure_capacity_doubling_witness :
  list_ensure_capacity 4 64 (int_list_world 16 [10; 20] (bump_allocator 4096)) int_list 14 4
    = Done (int_list, int_list_world 16 [10; 20] (bump_allocator 4096)) /\
  exists list' w' new_capacity,
    list_ensure_capacity 4 64 (int_list_world 16 [10; 20] (bump_allocator 4096)) int_list 99 4
      = Done (list', w') /\
    list_cap w' list' = Some new_capacity /\
    2 + 99 <= new_capacity /\
    (exists j : nat, new_capacity = 16 * 2 ^ Z.of_nat j) /\
    (forall j : nat, 2 + 99 <= 16 * 2 ^ Z.of_nat j -> new_capacity <= 16 * 2 ^ Z.of_nat j).
Proof.
  split.
  - apply (ensure_capacity_doubling 4 64 (int_list_world 16 [10; 20] (bump_allocator 4096))
      int_list 14 4 (int_list_block 16 [10; 20])); try reflexivity; simpl; lia.
  - apply (ensure_capacity_doubling 4 64 (int_list_world 16 [10; 20] (bump_allocator 4096))
      int_list 99 4 (int_list_block 16 [10; 20])) with (k := 3%nat) (a := bump_allocator 4096);
      try reflexivity; simpl; try lia.
    intros size. unfold NULL. lia.
Defined.

(** C3 as stated fails: on a list of capacity 0, as [create_list(4, 0, NULL)]
    makes one, a request for one more element doubles 0 for ever: the call
    completes for no amount of fuel, so there is no resulting capacity. *)
Lemma ensure_capacity_zero_capacity_diverges :
  ~ exists (fuel : nat) (r : Z * World Z positive),
      list_ensure_capacity 4 fuel (int_list_world 0 [] (bump_allocator 4096)) int_list 1 4
        = Done r.
Proof.
  intros (fuel & r & H).
  rewrite (ensure_capacity_OutOfFuel 4 fuel _ int_list (int_list_block 0 []) 1 4) in H;
    [discriminate | reflexivity | reflexivity |].
  apply grow_loop_stuck_at_zero. reflexivity.
Qed.

Lemma ensure_capacity_preserves_elements_witness :
  exists list' w',
    list_ensure_capacity 4 64 (int_list_world 2 [10; 20] (bump_allocator 4096)) int_list 1 4
      = Done (list', w') /\
    list_len w' list' = Some 2 /\
    (forall i, 0 <= i < 2 ->
       read_slot 4 w' list' i
       = read_slot 4 (int_list_world 2 [10; 20] (bump_allocator 4096)) int_list i).
Proof.
  destruct (list_ensure_capacity 4 64 (int_list_world 2 [10; 20] (bump_allocator 4096))
              int_list 1 4) as [[list' w']| |] eqn:E;
    [|vm_compute in E; discriminate|vm_compute in E; discriminate].
  exists list', w'. split; [reflexivity|].
  destruct (ensure_capacity_preserves_elements 4 64
    (int_list_world 2 [10; 20] (bump_allocator 4096)) int_list 1
    (int_list_block 2 [10; 20]) list' w' eq_refl) as [Hlen Hread];
    [reflexivity | simpl; lia | simpl; lia | exact E |].
  split; [exact Hlen|].
  vm_compute in E. injection E as <- <-.
  apply (Hread 4); reflexivity.
Defined.

(** C10 as stated fails: a list of two [int]s asked for room for [2^62]
    more.  The new capacity is [2^63], its byte size [32 + 2^63 * 4] wraps to
    32, the allocator is asked to shrink the block to its header, and the
    elements are gone from the block that comes back. *)
Lemma ensure_capacity_loses_elements :
  exists w',
    list_ensure_capacity 4 64 (int_list_world 16 [10; 20] (bump_allocator 4096)) int_list
      4611686018427387904 4 = Done (4128, w') /\
    list_cap w' 4128 = Some 9223372036854775808 /\
    read_slot 4 (int_list_world 16 [10; 20] (bump_allocator 4096)) int_list 0 = Some 10 /\
    read_slot 4 w' 4128 0 = None.
Proof.
  eexists. split; [vm_compute; reflexivity|].
  repeat split; vm_compute; reflexivity.
Qed.

Lemma ensure_capacity_realloc_failure_witness :
  list_ensure_capacity 4 64 (int_list_world 2 [10; 20] exhausted_allocator) int_list 1 4
    = Undefined.
Proof.
  apply (ensure_capacity_realloc_failure 4 64
    (int_list_world 2 [10; 20] exhausted_allocator) int_list 1 4
    (int_list_block 2 [10; 20]) 4 exhausted_allocator); reflexivity.
Defined.

(** ** Append *)

Section Append.

Context {T Ctx : Type}.
Variable sizeof_T : Z.

Implicit Types (w : World T Ctx) (b : Block T).

(** The part of [list_append] that follows the call of
    [list_ensure_capacity]: the store into slot [length] and the
    increment. *)
Lemma list_append_after_ensure fuel w list item_size item list' w1 b1 :
  list_ensure_capacity sizeof_T fuel w list 1 item_size = Done (list', w1) ->
  load_prelude w1 (list_prelude list') = Some b1 ->
  slot_fits sizeof_T (blk_size b1) (length (blk_prelude b1)) = true ->
  exists w3,
    list_append sizeof_T fuel w list item_size item
      = Done (list', slot_addr sizeof_T list' (length (blk_prelude b1)), w3) /\
    load_prelude w3 (list_prelude list')
      = Some (appended b1 (wrap (length (blk_prelude b1) + 1)) item) /\
    allocators w3 = allocators w1 /\ calls w3 = calls w1 /\
    dom (heap w3) = dom (heap w1).
Proof.
  intros Hrun Hb1 Hfit.
  unfold list_append. rewrite Hrun, Hb1.
  unfold write_slot. rewrite Hb1, Hfit.
  pose proof Hb1 as Hb1'. apply load_prelude_Some in Hb1' as (Hp & Hhp & Hsz).
  erewrite store_length_Some by (apply load_prelude_insert; [exact Hp | exact Hsz]).
  eexists. split; [reflexivity|].
  split; [apply load_prelude_insert; [exact Hp | exact Hsz]|].
  split; [reflexivity|]. split; [reflexivity|].
  simpl.
  rewrite dom_insert_lookup_L by (rewrite lookup_insert_eq; eauto).
  apply dom_insert_lookup_L; eauto.
Qed.

(** An append into room that is already there: no call to the allocator,
    the same handle, the same block. *)
Lemma list_append_in_place fuel w list b item :
  let h := blk_prelude b in
  load_prelude w (list_prelude list) = Some b ->
  0 < sizeof_T -> 0 <= length h < capacity h ->
  blk_size b = sizeof_ListPrelude + capacity h * sizeof_T ->
  blk_size b < size_modulus ->
  exists w',
    list_append sizeof_T fuel w list sizeof_T item
      = Done (list, slot_addr sizeof_T list (length h), w') /\
    load_prelude w' (list_prelude list) = Some (appended b (length h + 1) item) /\
    allocators w' = allocators w /\ calls w' = calls w /\
    dom (heap w') = dom (heap w).
Proof.
  intros h Hb Hs Hlen Hsize Hfit.
  assert (Hw : wrap (length h + 1) = length h + 1)
    by (apply wrap_small; unfold sizeof_ListPrelude in *; nia).
  assert (Hkeep : list_ensure_capacity sizeof_T fuel w list 1 sizeof_T = Done (list, w)).
  { eapply ensure_capacity_keep; [exact Hb|]. fold h. lia. }
  destruct (list_append_after_ensure fuel w list sizeof_T item list w b Hkeep Hb)
    as (w3 & Hrun & Hload & Hrest).
  { apply slot_fits_iff. fold h. rewrite Hsize. unfold sizeof_ListPrelude. nia. }
  fold h in Hrun, Hload. rewrite Hw in Hload. eauto.
Qed.

(** One append on a well-formed list whose allocator does not fail. *)
Lemma list_append_step fuel w list b a item :
  let h := blk_prelude b in
  load_prelude w (list_prelude list) = Some b ->
  0 < sizeof_T -> 1 <= capacity h -> 0 <= length h <= capacity h ->
  blk_size b = sizeof_ListPrelude + capacity h * sizeof_T ->
  blk_size b < size_modulus ->
  (length h = capacity h ->
   sizeof_ListPrelude + 2 * capacity h * sizeof_T < size_modulus) ->
  allocators w !! allocator h = Some a ->
  (forall p size c, (realloc a p size c).1 <> NULL) ->
  (64 <= fuel)%nat ->
  exists list' w' b' a',
    list_append sizeof_T fuel w list sizeof_T item
      = Done (list', slot_addr sizeof_T list' (length h), w') /\
    load_prelude w' (list_prelude list') = Some b' /\
    length (blk_prelude b') = length h + 1 /\
    (length h < capacity h /\ capacity (blk_prelude b') = capacity h \/
     length h = capacity h /\ capacity (blk_prelude b') = 2 * capacity h) /\
    blk_size b' = sizeof_ListPrelude + capacity (blk_prelude b') * sizeof_T /\
    allocator (blk_prelude b') = allocator h /\
    blk_slots b' !! length h = Some item /\
    (forall i, 0 <= i < length h -> blk_slots b' !! i = blk_slots b !! i) /\
    allocators w' !! allocator h = Some a' /\ realloc a' = realloc a.
Proof.
  intros h Hb Hs Hc Hlen Hsize Hlim Hfit Ha Hre Hf.
  destruct (Z.lt_ge_cases (length h) (capacity h)) as [Hroom|Hfull].
  - (* room left: no reallocation *)
    destruct (list_append_in_place fuel w list b item) as (w3 & Hrun & Hload & Hal & _);
      try assumption; [fold h; lia|].
    exists list, w3, (appended b (length h + 1) item), a.
    split; [exact Hrun|]. split; [exact Hload|]. simpl. fold h.
    split; [reflexivity|].
    split; [left; split; [exact Hroom | reflexivity]|].
    split; [exact Hsize|]. split; [reflexivity|].
    split; [apply lookup_insert_eq|].
    split; [intros i Hi; apply lookup_insert_ne; lia|].
    split; [rewrite Hal; exact Ha | reflexivity].
  - (* full: one doubling *)
    assert (Heq : length h = capacity h) by lia.
    specialize (Hfit Heq).
    set (nc := 2 * capacity h).
    set (new_size := wrap (sizeof_ListPrelude + wrap (nc * sizeof_T))).
    assert (Hns : new_size = sizeof_ListPrelude + nc * sizeof_T).
    { unfold new_size, nc, sizeof_ListPrelude in *.
      rewrite (wrap_small (2 * capacity h * sizeof_T)) by nia. apply wrap_small. nia. }
    assert (Hw : wrap (length h + 1) = length h + 1)
      by (apply wrap_small; unfold sizeof_ListPrelude in *; nia).
    assert (Hg : grow_loop fuel (wrap (capacity h * 2)) (wrap (length h + 1)) = Some nc).
    { rewrite Hw, wrap_small by (unfold sizeof_ListPrelude in *; nia).
      destruct fuel as [|fuel]; [lia|]. simpl.
      destruct (Z.ltb_spec (capacity h * 2) (length h + 1)); [lia|].
      unfold nc. f_equal. lia. }
    destruct (realloc a (list_prelude list) new_size (context a)) as [q c'] eqn:Hr.
    pose proof (Hre (list_prelude list) new_size (context a)) as Hq.
    rewrite Hr in Hq. simpl in Hq.
    destruct (ensure_capacity_grow sizeof_T fuel w list b 1 sizeof_T nc a q c')
      as (w1 & Hrun1 & Hload1 & Hal1 & _); try assumption.
    { fold h. lia. }
    { fold new_size. rewrite Hns. unfold sizeof_ListPrelude, nc. nia. }
    fold new_size in Hload1. rewrite <- (list_prelude_prelude_end q) in Hload1.
    destruct (list_append_after_ensure fuel w list sizeof_T item (prelude_end q) w1 _
                Hrun1 Hload1) as (w3 & Hrun & Hload & Hal & _).
    { apply slot_fits_iff. simpl. fold h. rewrite Hns.
      unfold sizeof_ListPrelude, nc. nia. }
    simpl in Hrun, Hload. fold h in Hrun, Hload.
    exists (prelude_end q), w3, (appended (grown sizeof_T b new_size nc)
      (wrap (length h + 1)) item), (with_context a c').
    split; [exact Hrun|]. split; [exact Hload|]. simpl. fold h.
    split; [exact Hw|]. split; [right; split; [exact Heq | reflexivity]|].
    split; [exact Hns|]. split; [reflexivity|].
    split; [apply lookup_insert_eq|].
    split.
    + intros i Hi. rewrite lookup_insert_ne by lia.
      apply (resized_lookup sizeof_T b new_size i).
      apply slot_fits_iff. rewrite Hns. unfold sizeof_ListPrelude, nc. nia.
    + split; [|reflexivity].
      rewrite Hal, Hal1. fold h. apply lookup_insert_eq.
Qed.

End Append.

(** ** Runs of appends *)

Section Runs.

Context {T Ctx : Type}.
Variable sizeof_T : Z.
Variable default_allocator : Z.

Implicit Types (w : World T Ctx) (b : Block T) (vs : Datatypes.list T).

Lemma holds_snoc b b' vs item :
  holds b vs ->
  length (blk_prelude b') = length (blk_prelude b) + 1 ->
  blk_slots b' !! length (blk_prelude b) = Some item ->
  (forall i, 0 <= i < length (blk_prelude b) -> blk_slots b' !! i = blk_slots b !! i) ->
  holds b' (vs ++ [item]).
Proof.
  intros [Hlen Hvs] Hlen' Hitem Hold. split.
  - rewrite length_app, Nat2Z.inj_add. simpl. lia.
  - intros i v Hi.
    destruct (Nat.lt_ge_cases i (List.length vs)) as [Hlt|Hge].
    + rewrite lookup_app_l in Hi by exact Hlt.
      rewrite Hold by lia. now apply Hvs.
    + apply lookup_lt_Some in Hi as Hb. rewrite length_app in Hb. simpl in Hb.
      assert (i = List.length vs) as -> by lia.
      rewrite list_lookup_middle in Hi by reflexivity.
      injection Hi as <-. now rewrite <- Hlen.
Qed.

Lemma holds_read w list b vs (i : nat) v :
  load_prelude w (list_prelude list) = Some b ->
  holds b vs -> 0 < sizeof_T ->
  length (blk_prelude b) <= capacity (blk_prelude b) ->
  blk_size b = sizeof_ListPrelude + capacity (blk_prelude b) * sizeof_T ->
  vs !! i = Some v ->
  read_slot sizeof_T w list (Z.of_nat i) = Some v.
Proof.
  intros Hb [Hlen Hvs] Hs Hle Hsize Hi.
  unfold read_slot. rewrite Hb.
  apply lookup_lt_Some in Hi as Hlt.
  replace (slot_fits sizeof_T (blk_size b) (Z.of_nat i)) with true.
  - now apply Hvs.
  - symmetry. apply slot_fits_iff. rewrite Hsize. unfold sizeof_ListPrelude. nia.
Qed.

(** Appending [vs] behind [vs0], the capacities staying within [bound]. *)
Lemma append_all_run vs : forall fuel w list b a vs0 bound,
  let h := blk_prelude b in
  load_prelude w (list_prelude list) = Some b ->
  0 < sizeof_T -> 1 <= capacity h -> length h <= capacity h ->
  blk_size b = sizeof_ListPrelude + capacity h * sizeof_T ->
  holds b vs0 ->
  capacity h <= bound ->
  2 * (Z.of_nat (List.length vs0) + Z.of_nat (List.length vs)) <= bound ->
  sizeof_ListPrelude + bound * sizeof_T < size_modulus ->
  allocators w !! allocator h = Some a ->
  (forall p size c, (realloc a p size c).1 <> NULL) ->
  (64 <= fuel)%nat ->
  exists list' w' b',
    append_all sizeof_T fuel w list vs = Done (list', w') /\
    load_prelude w' (list_prelude list') = Some b' /\
    holds b' (vs0 ++ vs) /\
    length (blk_prelude b') <= capacity (blk_prelude b') /\
    blk_size b' = sizeof_ListPrelude + capacity (blk_prelude b') * sizeof_T.
Proof.
  induction vs as [|v vs IH];
    intros fuel w list b a vs0 bound h Hb Hs Hc Hle Hsize Hh Hcb Hn Hfit Ha Hre Hf.
  - exists list, w, b. rewrite app_nil_r. simpl. auto.
  - pose proof Hh as [Hlen _]. fold h in Hlen. simpl List.length in Hn.
    destruct (list_append_step sizeof_T fuel w list b a v)
      as (list' & w' & b' & a' & Hrun & Hb' & Hlen' & Hcap & Hsize' & Halloc & Hitem
          & Hold & Ha' & Hre'); try assumption.
    { fold h. lia. }
    { rewrite Hsize. fold h. unfold sizeof_ListPrelude in *. nia. }
    { fold h. intros Heq. unfold sizeof_ListPrelude in *. nia. }
    fold h in Hrun, Hlen', Hcap, Hitem, Hold, Ha'.
    destruct (IH fuel w' list' b' a' (vs0 ++ [v]) bound)
      as (list'' & w'' & b'' & Hrun' & Hb'' & Hh'' & Hle'' & Hsize''); try assumption.
    + destruct Hcap as [[_ ->] | [_ ->]]; lia.
    + destruct Hcap as [[? ->] | [? ->]]; lia.
    + eapply holds_snoc; eassumption.
    + destruct Hcap as [[_ ->] | [? ->]]; [assumption | lia].
    + rewrite length_app. simpl. lia.
    + rewrite Halloc. exact Ha'.
    + rewrite Hre'. exact Hre.
    + exists list'', w'', b''. simpl. rewrite Hrun.
      split; [exact Hrun'|]. split; [exact Hb''|].
      rewrite <- app_assoc in Hh''. auto.
Qed.

(** Appending [vs] behind [vs0] within the capacity: the allocator is not
    called and the handle stays. *)
Lemma append_all_in_place vs : forall fuel w list b vs0,
  let h := blk_prelude b in
  load_prelude w (list_prelude list) = Some b ->
  0 < sizeof_T ->
  blk_size b = sizeof_ListPrelude + capacity h * sizeof_T ->
  blk_size b < size_modulus ->
  holds b vs0 ->
  Z.of_nat (List.length vs0) + Z.of_nat (List.length vs) <= capacity h ->
  exists w' b',
    append_all sizeof_T fuel w list vs = Done (list, w') /\
    load_prelude w' (list_prelude list) = Some b' /\
    holds b' (vs0 ++ vs) /\
    blk_size b' = blk_size b /\
    capacity (blk_prelude b') = capacity h /\
    allocator (blk_prelude b') = allocator h /\
    allocators w' = allocators w /\ calls w' = calls w /\
    dom (heap w') = dom (heap w).
Proof.
  induction vs as [|v vs IH]; intros fuel w list b vs0 h Hb Hs Hsize Hfit Hh Hn.
  - exists w, b. rewrite app_nil_r. simpl. repeat split; auto; apply Hh.
  - pose proof Hh as [Hlen _]. fold h in Hlen. simpl List.length in Hn.
    destruct (list_append_in_place sizeof_T fuel w list b v)
      as (w' & Hrun & Hb' & Hal & Hcalls & Hdom); try assumption.
    { fold h. lia. }
    fold h in Hrun, Hb'.
    destruct (IH fuel w' list (appended b (length h + 1) v) (vs0 ++ [v]))
      as (w'' & b'' & Hrun' & Hb'' & Hh'' & Hsz'' & Hcap'' & Halloc'' & Hal'' & Hcalls''
          & Hdom''); try assumption.
    + eapply holds_snoc; [exact Hh | reflexivity | apply lookup_insert_eq |].
      intros i Hi. apply lookup_insert_ne. lia.
    + rewrite length_app, Nat2Z.inj_add.
      change (capacity (blk_prelude (appended b (length h + 1) v))) with (capacity h).
      change (Z.of_nat (List.length [v])) with 1. lia.
    + exists w'', b''. simpl. rewrite Hrun.
      split; [exact Hrun'|]. split; [exact Hb''|].
      rewrite <- app_assoc in Hh''.
      split; [exact Hh''|]. split; [exact Hsz''|]. split; [exact Hcap''|].
      split; [exact Halloc''|].
      split; [congruence|]. split; congruence.
Qed.

(** *** Construction *)

(** The three field stores of [create_list] on the block that [alloc]
    returned at [p]. *)
Lemma create_list_stores w (hp : gmap Z (Block T)) p size capacity0 aid :
  p <> NULL -> sizeof_ListPrelude <= size ->
  let w1 := set_heap w
    (<[p := {| blk_size := size;
               blk_prelude := {| capacity := 0; length := 0; allocator := NULL |};
               blk_slots := ∅ |}]> hp) in
  exists w4,
    match store_capacity w1 p capacity0 with
    | None => None
    | Some w2 =>
        match store_length w2 p 0 with
        | None => None
        | Some w3 => store_allocator w3 p aid
        end
    end = Some w4 /\
    load_prelude w4 p = Some (created size capacity0 aid) /\
    allocators w4 = allocators w /\ calls w4 = calls w.
Proof.
  intros Hp Hsz w1.
  erewrite store_capacity_Some by (apply load_prelude_insert; assumption).
  erewrite store_length_Some by (apply load_prelude_insert; assumption).
  erewrite store_allocator_Some by (apply load_prelude_insert; assumption).
  eexists. split; [reflexivity|].
  split; [apply load_prelude_insert; assumption|]. split; reflexivity.
Qed.

Lemma create_list_Done w stride capacity0 allocator0 l w' :
  create_list default_allocator w stride capacity0 allocator0 = Done (l, w') ->
  l <> NULL ->
  load_prelude w' (list_prelude l) = Some
    (created (wrap (sizeof_ListPrelude + wrap (stride * capacity0))) capacity0
       (if allocator0 =? NULL then default_allocator else allocator0)).
Proof.
  unfold create_list. intros H Hl.
  destruct (allocators w !! _) as [a|]; [|discriminate].
  unfold call_alloc in H.
  destruct (alloc a _ (context a)) as [p c].
  destruct (Z.eqb_spec p NULL) as [|Hp]; [injection H as <- _; contradiction|].
  set (size := wrap (sizeof_ListPrelude + wrap (stride * capacity0))) in *.
  set (aid := if allocator0 =? NULL then default_allocator else allocator0) in *.
  destruct (Z.leb_spec sizeof_ListPrelude size) as [Hsz|Hsz].
  - destruct (create_list_stores
                {| heap := heap w; allocators := <[aid := with_context a c]> (allocators w);
                   calls := calls w ++ [CallAlloc aid size p] |}
                (heap w) p size capacity0 aid Hp Hsz) as (w4 & Hst & Hb & _).
    unfold set_heap in Hst. simpl in Hst.
    destruct (store_capacity _ p capacity0) as [w2|]; [|discriminate].
    destruct (store_length w2 p 0) as [w3|]; [|discriminate].
    rewrite Hst in H. injection H as <- <-.
    now rewrite list_prelude_prelude_end.
  - unfold store_capacity, load_prelude in H. simpl in H.
    rewrite lookup_insert_eq in H. simpl in H.
    destruct (Z.eqb_spec p NULL); [contradiction|].
    destruct (Z.leb_spec sizeof_ListPrelude size); [lia | discriminate].
Qed.

Lemma create_list_succeeds w stride capacity0 allocator0 a :
  let aid := if allocator0 =? NULL then default_allocator else allocator0 in
  let size := sizeof_ListPrelude + stride * capacity0 in
  allocators w !! aid = Some a ->
  (forall n c, (alloc a n c).1 <> NULL) ->
  0 <= stride * capacity0 -> size < size_modulus ->
  exists p c w',
    create_list default_allocator w stride capacity0 allocator0
      = Done (prelude_end p, w') /\
    load_prelude w' p = Some (created size capacity0 aid) /\
    allocators w' = <[aid := with_context a c]> (allocators w).
Proof.
  intros aid size Ha Hal Hnn Hfit. unfold create_list. fold aid. rewrite Ha.
  assert (Hsz : wrap (sizeof_ListPrelude + wrap (stride * capacity0)) = size).
  { unfold size, sizeof_ListPrelude in *.
    rewrite (wrap_small (stride * capacity0)) by lia. apply wrap_small. lia. }
  rewrite Hsz. unfold call_alloc.
  destruct (alloc a size (context a)) as [p c] eqn:E.
  specialize (Hal size (context a)). rewrite E in Hal. simpl in Hal.
  destruct (Z.eqb_spec p NULL) as [|_]; [contradiction|].
  destruct (create_list_stores
              {| heap := heap w; allocators := <[aid := with_context a c]> (allocators w);
                 calls := calls w ++ [CallAlloc aid size p] |}
              (heap w) p size capacity0 aid Hal) as (w4 & Hst & Hb & Hal4 & _).
  { unfold size, sizeof_ListPrelude. lia. }
  unfold set_heap in Hst. simpl in Hst.
  destruct (store_capacity _ p capacity0) as [w2|]; [|discriminate].
  destruct (store_length w2 p 0) as [w3|]; [|discriminate].
  rewrite Hst. exists p, c, w4. split; [reflexivity|]. split; [exact Hb | exact Hal4].
Qed.

End Runs.

(** ** Append and clear, as the caller sees them *)

Section AppendClear.

Context {T Ctx : Type}.
Variable sizeof_T : Z.
Variable default_allocator : Z.

Implicit Types (w : World T Ctx) (b : Block T) (vs : Datatypes.list T).

Lemma slot_of_addr_slot_addr list n :
  0 < sizeof_T -> slot_of_addr sizeof_T list (slot_addr sizeof_T list n) = Some n.
Proof.
  intros Hs. unfold slot_of_addr, slot_addr.
  replace (list + n * sizeof_T - list) with (n * sizeof_T) by lia.
  rewrite Z.mod_mul, Z.div_mul by lia.
  destruct (Z.ltb_spec 0 sizeof_T); [reflexivity | lia].
Qed.

Lemma read_slot_at w list b i :
  load_prelude w (list_prelude list) = Some b ->
  0 < sizeof_T -> 0 <= i < capacity (blk_prelude b) ->
  blk_size b = sizeof_ListPrelude + capacity (blk_prelude b) * sizeof_T ->
  read_slot sizeof_T w list i = blk_slots b !! i.
Proof.
  intros Hb Hs Hi Hsize. unfold read_slot. rewrite Hb.
  replace (slot_fits sizeof_T (blk_size b) i) with true; [reflexivity|].
  symmetry. apply slot_fits_iff. rewrite Hsize. unfold sizeof_ListPrelude. nia.
Qed.

(** Where the length is below the capacity, [list_ensure_capacity] returns
    before it looks at [item_size]: an append there is the same whatever
    [sizeof(item)] is. *)
Lemma list_append_item_size_unused fuel w list b item_size item_size' item :
  load_prelude w (list_prelude list) = Some b ->
  wrap (length (blk_prelude b) + 1) <= capacity (blk_prelude b) ->
  list_append sizeof_T fuel w list item_size item
  = list_append sizeof_T fuel w list item_size' item.
Proof.
  intros Hb Hle. unfold list_append.
  rewrite (ensure_capacity_keep sizeof_T fuel w list b 1 item_size Hb Hle).
  rewrite (ensure_capacity_keep sizeof_T fuel w list b 1 item_size' Hb Hle).
  reflexivity.
Qed.

(** C4: starting from the empty list that [create_list] makes with a
    capacity of at least 1 (as [list_new(T)] and
    [list_new_alloc(T, allocator)] do, with capacity 16), with an
    allocator that does not fail and element and run sizes whose byte
    counts fit in [size_t], appending any sequence of N values of the
    element type ends with length N, a capacity of at least N, and the
    i-th appended value at index i.  And each single append on a list
    with capacity at least 1 writes the value into slot [length], raises
    the length by one, and returns the address of that slot, through
    which the value reads back; the earlier elements stay.  The size of
    the item expression is of no effect while the length is below the
    capacity; where the list is full it is taken to be the element
    size. *)
Theorem append_correct (fuel : nat) :
  0 < sizeof_T -> (64 <= fuel)%nat ->
  (forall w (capacity0 allocator0 : Z) (a : Allocator Ctx) vs,
     let aid := if allocator0 =? NULL then default_allocator else allocator0 in
     let N := Z.of_nat (List.length vs) in
     1 <= capacity0 ->
     allocators w !! aid = Some a ->
     (forall size c, (alloc a size c).1 <> NULL) ->
     (forall p size c, (realloc a p size c).1 <> NULL) ->
     sizeof_ListPrelude + Z.max capacity0 (2 * N) * sizeof_T < size_modulus ->
     exists list0 w0 list' w' cap,
       create_list default_allocator w sizeof_T capacity0 allocator0 = Done (list0, w0) /\
       list_len w0 list0 = Some 0 /\
       list_cap w0 list0 = Some capacity0 /\
       append_all sizeof_T fuel w0 list0 vs = Done (list', w') /\
       list_len w' list' = Some N /\
       list_cap w' list' = Some cap /\ N <= cap /\
       (forall (i : nat) (v : T), vs !! i = Some v ->
          read_slot sizeof_T w' list' (Z.of_nat i) = Some v)) /\
  (forall w (list item_size : Z) b (a : Allocator Ctx) (item : T),
     let h := blk_prelude b in
     load_prelude w (list_prelude list) = Some b ->
     1 <= capacity h -> 0 <= length h <= capacity h ->
     blk_size b = sizeof_ListPrelude + capacity h * sizeof_T ->
     blk_size b < size_modulus ->
     (length h = capacity h ->
      item_size = sizeof_T /\
      sizeof_ListPrelude + 2 * capacity h * sizeof_T < size_modulus) ->
     allocators w !! allocator h = Some a ->
     (forall p size c, (realloc a p size c).1 <> NULL) ->
     exists list' w',
       list_append sizeof_T fuel w list item_size item
         = Done (list', slot_addr sizeof_T list' (length h), w') /\
       read_slot sizeof_T w' list' (length h) = Some item /\
       read_at sizeof_T w' list' (slot_addr sizeof_T list' (length h)) 0 = Some item /\
       list_len w' list' = Some (length h + 1) /\
       (forall i, 0 <= i < length h ->
          read_slot sizeof_T w' list' i = read_slot sizeof_T w list i)).
Proof.
  intros Hs Hf. split.
  - intros w capacity0 allocator0 a vs aid N Hc0 Ha Hal Hre Hfit.
    assert (Hfit0 : sizeof_ListPrelude + sizeof_T * capacity0 < size_modulus).
    { unfold sizeof_ListPrelude in *. nia. }
    destruct (create_list_succeeds default_allocator w sizeof_T capacity0
                allocator0 a) as (p & c & w0 & Hnew & Hb0 & Hal0); try assumption.
    { nia. }
    fold aid in Hb0, Hal0.
    set (b0 := created (sizeof_ListPrelude + sizeof_T * capacity0) capacity0 aid) in *.
    rewrite <- (list_prelude_prelude_end p) in Hb0.
    destruct (append_all_run sizeof_T vs fuel w0 (prelude_end p) b0 (with_context a c) []
                (Z.max capacity0 (2 * N)))
      as (list' & w' & b' & Hrun & Hb' & Hh' & Hle' & Hsize'); try assumption.
    + simpl. lia.
    + simpl. lia.
    + simpl. split; [reflexivity | intros i v Hi; rewrite lookup_nil in Hi; discriminate].
    + simpl. lia.
    + simpl List.length. fold N. lia.
    + simpl. rewrite Hal0. apply lookup_insert_eq.
    + exists (prelude_end p), w0, list', w', (capacity (blk_prelude b')).
      split; [exact Hnew|].
      split; [unfold list_len; now rewrite Hb0|].
      split; [unfold list_cap; now rewrite Hb0|].
      split; [exact Hrun|].
      pose proof Hh' as [Hlen' _]. simpl in Hlen'.
      split; [unfold list_len; rewrite Hb'; now rewrite Hlen'|].
      split; [unfold list_cap; now rewrite Hb'|].
      split; [fold N in Hlen'; lia|].
      intros i v Hi. eapply holds_read; eassumption.
  - intros w list item_size b a item h Hb Hc Hlen Hsize Hlim Hfit Ha Hre.
    assert (Hsame : list_append sizeof_T fuel w list item_size item
                    = list_append sizeof_T fuel w list sizeof_T item).
    { destruct (Z.eq_dec (length h) (capacity h)) as [Heq|Hne].
      - destruct (Hfit Heq) as [-> _]. reflexivity.
      - apply (list_append_item_size_unused fuel w list b); [exact Hb|].
        fold h. rewrite wrap_small; [lia|].
        unfold sizeof_ListPrelude in *. nia. }
    rewrite Hsame.
    assert (Hfit' : length h = capacity h ->
              sizeof_ListPrelude + 2 * capacity h * sizeof_T < size_modulus)
      by (intros Heq; apply (Hfit Heq)).
    destruct (list_append_step sizeof_T fuel w list b a item)
      as (list' & w' & b' & a' & Hrun & Hb' & Hlen' & Hcap & Hsize' & _ & Hitem
          & Hold & _); try assumption.
    fold h in Hrun, Hlen', Hcap, Hitem, Hold.
    assert (Hcap' : capacity h <= capacity (blk_prelude b'))
      by (destruct Hcap as [[_ ->] | [_ ->]]; lia).
    assert (Hroom : length h < capacity (blk_prelude b'))
      by (destruct Hcap as [[? ->] | [? ->]]; lia).
    assert (Hread : read_slot sizeof_T w' list' (length h) = Some item).
    { rewrite (read_slot_at w' list' b') by (assumption || lia). exact Hitem. }
    exists list', w'. split; [exact Hrun|]. split; [exact Hread|].
    split.
    { unfold read_at. rewrite slot_of_addr_slot_addr by exact Hs.
      now rewrite Z.add_0_r. }
    split; [unfold list_len; now rewrite Hb', Hlen'|].
    intros i Hi.
    rewrite (read_slot_at w' list' b') by (assumption || lia).
    rewrite (read_slot_at w list b) by (assumption || (fold h; lia)).
    now apply Hold.
Qed.

(** C8: clearing a list sets its length to 0 and leaves the capacity, the
    block with its size and slots, the allocator reference, the set of
    live allocations and the record of allocator calls as they were; and
    appending afterwards any run of values no longer than that capacity
    keeps the handle and makes no call to the allocator. *)
Theorem clear_retains_buffer w (list : Z) b :
  let h := blk_prelude b in
  load_prelude w (list_prelude list) = Some b ->
  0 < sizeof_T ->
  blk_size b = sizeof_ListPrelude + capacity h * sizeof_T ->
  blk_size b < size_modulus ->
  exists w1,
    list_clear w list = Done w1 /\
    load_prelude w1 (list_prelude list) = Some
      {| blk_size := blk_size b;
         blk_prelude := {| capacity := capacity h; length := 0;
                           allocator := allocator h |};
         blk_slots := blk_slots b |} /\
    list_len w1 list = Some 0 /\
    list_cap w1 list = Some (capacity h) /\
    allocators w1 = allocators w /\ calls w1 = calls w /\
    dom (heap w1) = dom (heap w) /\
    (forall (fuel : nat) vs,
       Z.of_nat (List.length vs) <= capacity h ->
       exists w2,
         append_all sizeof_T fuel w1 list vs = Done (list, w2) /\
         calls w2 = calls w /\ allocators w2 = allocators w /\
         dom (heap w2) = dom (heap w) /\
         list_cap w2 list = Some (capacity h) /\
         list_len w2 list = Some (Z.of_nat (List.length vs)) /\
         (forall (i : nat) (v : T), vs !! i = Some v ->
            read_slot sizeof_T w2 list (Z.of_nat i) = Some v)).
Proof.
  intros h Hb Hs Hsize Hfit.
  pose proof Hb as Hb0. apply load_prelude_Some in Hb0 as (Hp & Hhp & Hsz).
  set (b1 := {| blk_size := blk_size b;
                blk_prelude := {| capacity := capacity h; length := 0;
                                  allocator := allocator h |};
                blk_slots := blk_slots b |}).
  assert (Hb1 : load_prelude (set_heap w (<[list_prelude list := b1]> (heap w)))
                  (list_prelude list) = Some b1)
    by (apply load_prelude_insert; assumption).
  exists (set_heap w (<[list_prelude list := b1]> (heap w))). split.
  { unfold list_clear. rewrite (store_length_Some w _ b 0 Hb). reflexivity. }
  split; [exact Hb1|].
  split; [unfold list_len; now rewrite Hb1|].
  split; [unfold list_cap; now rewrite Hb1|].
  split; [reflexivity|]. split; [reflexivity|].
  split; [simpl; apply dom_insert_lookup_L; eauto|].
  intros fuel vs Hn.
  destruct (append_all_in_place sizeof_T vs fuel _ list b1 [] Hb1)
    as (w2 & b2 & Hrun & Hb2 & Hh2 & Hsz2 & Hcap2 & _ & Hal2 & Hcalls2 & Hdom2);
    try assumption.
  { split; [reflexivity | intros i v Hi; rewrite lookup_nil in Hi; discriminate]. }
  simpl in Hh2, Hsz2, Hcap2, Hal2, Hcalls2, Hdom2.
  exists w2. split; [exact Hrun|]. split; [exact Hcalls2|]. split; [exact Hal2|].
  split; [rewrite Hdom2; apply dom_insert_lookup_L; eauto|].
  split; [unfold list_cap; now rewrite Hb2, Hcap2|].
  pose proof Hh2 as [Hlen2 _].
  split; [unfold list_len; now rewrite Hb2, Hlen2|].
  intros i v Hi. eapply (holds_read sizeof_T w2 list b2 vs); try eassumption.
  - rewrite Hlen2, Hcap2. exact Hn.
  - rewrite Hsz2, Hcap2. exact Hsize.
Qed.

End AppendClear.

Example append_twenty :
  exists w', append_all 4 64 (int_list_world 16 [] (bump_allocator 4096)) int_list twenty_values
               = Done (4128, w') /\
    list_len w' 4128 = Some 20 /\ list_cap w' 4128 = Some 32 /\
    read_slot 4 w' 4128 19 = Some 4 /\
    calls w' = [CallRealloc 8 1024 160 4096].
Proof. eexists. split; [vm_compute; reflexivity|]. repeat split; vm_compute; reflexivity. Qed.

Lemma append_correct_witness :
  exists list0 w0 list' w' cap,
    list_new_alloc 4 8 fresh_world NULL = Done (list0, w0) /\
    list_len w0 list0 = Some 0 /\
    list_cap w0 list0 = Some DEFAULT_LIST_CAPACITY /\
    append_all 4 64 w0 list0 twenty_values = Done (list', w') /\
    list_len w' list' = Some 20 /\
    list_cap w' list' = Some cap /\ 20 <= cap /\
    (forall (i : nat) (v : Z), twenty_values !! i = Some v ->
       read_slot 4 w' list' (Z.of_nat i) = Some v).
Proof.
  apply (proj1 (@append_correct Z positive 4 8 64 ltac:(lia) ltac:(lia))
           fresh_world DEFAULT_LIST_CAPACITY NULL (bump_allocator 4096) twenty_values).
  - unfold DEFAULT_LIST_CAPACITY. lia.
  - reflexivity.
  - intros size c. simpl. discriminate.
  - intros p size c. simpl. discriminate.
  - vm_compute. reflexivity.
Defined.

(** C4 as stated fails: [create_list(4, 0, NULL)] returns an empty list,
    of length 0 and capacity 0, and the first append to it doubles the
    capacity 0 for ever: [list_append] completes for no amount of fuel, so
    no value is stored and the length never becomes 1. *)
Lemma append_to_zero_capacity_diverges :
  exists list0 w0,
    create_list 8 fresh_world 4 0 NULL = Done (list0, w0) /\
    list_len w0 list0 = Some 0 /\ list_cap w0 list0 = Some 0 /\
    ~ exists (fuel : nat) (r : Z * Z * World Z positive),
        list_append 4 fuel w0 list0 4 7 = Done r.
Proof.
  eexists _, _. split; [vm_compute; reflexivity|].
  split; [reflexivity|]. split; [reflexivity|].
  intros (fuel & r & H). unfold list_append in H.
  rewrite (ensure_capacity_OutOfFuel 4 fuel _ _ (created 32 0 8) 1 4) in H;
    [discriminate | reflexivity | reflexivity |].
  apply grow_loop_stuck_at_zero. reflexivity.
Qed.

Lemma clear_retains_buffer_witness :
  exists w1,
    list_clear (int_list_world 16 [10; 20] (bump_allocator 4096)) int_list = Done w1 /\
    list_len w1 int_list = Some 0 /\
    list_cap w1 int_list = Some 16 /\
    calls w1 = [] /\
    exists w2,
      append_all 4 0 w1 int_list [7; 8; 9] = Done (int_list, w2) /\
      calls w2 = [] /\ list_cap w2 int_list = Some 16.
Proof.
  destruct (@clear_retains_buffer Z positive 4
              (int_list_world 16 [10; 20] (bump_allocator 4096)) int_list
              (int_list_block 16 [10; 20]))
    as (w1 & Hclear & _ & Hlen & Hcap & _ & Hcalls & _ & Hrun);
    [reflexivity | lia | reflexivity | reflexivity |].
  exists w1. split; [exact Hclear|]. split; [exact Hlen|]. split; [exact Hcap|].
  split; [exact Hcalls|].
  destruct (Hrun 0%nat [7; 8; 9]) as (w2 & Happ & Hcalls2 & _ & _ & Hcap2 & _);
    [simpl; lia|].
  exists w2. split; [exact Happ|]. split; [exact Hcalls2 | exact Hcap2].
Defined.

(** ** Resize, remove, pop *)

Section ResizeRemove.

Context {T Ctx : Type}.
Variable sizeof_T : Z.
Variable default_allocator : Z.

Implicit Types (w : World T Ctx) (b : Block T).

(** After a completed [list_ensure_capacity] the length is what it was and
    the capacity covers the demand. *)
Lemma ensure_capacity_post fuel w list item_count item_size list' w' :
  list_ensure_capacity sizeof_T fuel w list item_count item_size = Done (list', w') ->
  exists b b',
    load_prelude w (list_prelude list) = Some b /\
    load_prelude w' (list_prelude list') = Some b' /\
    length (blk_prelude b') = length (blk_prelude b) /\
    allocator (blk_prelude b') = allocator (blk_prelude b) /\
    wrap (length (blk_prelude b) + item_count) <= capacity (blk_prelude b').
Proof.
  intros H. apply ensure_capacity_Done in H as (b & Hb & Hcase). cbv zeta in Hcase.
  destruct Hcase as [(Hle & -> & ->) | (_ & nc & a & q & c & Hg & _ & _ & _ & _ & -> & Hload & _)].
  - exists b, b. auto.
  - exists b, (grown sizeof_T b (wrap (sizeof_ListPrelude + wrap (nc * item_size))) nc).
    rewrite list_prelude_prelude_end. simpl.
    repeat split; auto. eapply grow_loop_exit. exact Hg.
Qed.

(** C2: what [list_resize(list, desired)] does where it completes: the
    length goes up by [desired], and the pointer it yields is the address
    of the slot at the new length, one past the last of the new slots, and
    not the first of them, because the compound assignment in the index
    yields the incremented length. *)
Theorem list_resize_returns_end
    (fuel : nat) w (list desired n : Z) list' p w' :
  list_resize sizeof_T fuel w list desired = Done (list', p, w') ->
  list_len w list = Some n ->
  0 < sizeof_T -> 0 <= n -> 0 < desired -> n + desired < size_modulus ->
  list_len w' list' = Some (n + desired) /\
  p = slot_addr sizeof_T list' (n + desired) /\
  p <> slot_addr sizeof_T list' n.
Proof.
  intros H Hn Hs Hn0 Hd Hfit. unfold list_resize in H.
  destruct (list_ensure_capacity _ _ _ _ _ _) as [[l1 w1]| |] eqn:E; try discriminate.
  apply ensure_capacity_post in E as (b & b1 & Hb & Hb1 & Hlen & _).
  unfold list_len in Hn. rewrite Hb in Hn. injection Hn as Hn.
  rewrite Hb1 in H. rewrite (store_length_Some _ _ _ _ Hb1) in H.
  injection H as <- <- <-.
  rewrite Hlen, Hn, wrap_small by lia.
  split.
  - unfold list_len. apply load_prelude_Some in Hb1 as Hb1'.
    destruct Hb1' as (Hp & _ & Hsz).
    now rewrite load_prelude_insert.
  - split; [reflexivity|]. unfold slot_addr. nia.
Qed.

(** C5: on a list with [1 <= length] and an index below the length,
    [list_remove_at] completes, lowers the length by one and leaves the
    capacity and the allocator alone.  At the last index it does no more
    than store the new length, so every slot reads as before; at any other
    index more than one element is live, slot [index] then reads as the
    former last slot did and every other slot reads as before; and with a
    single element the index is 0 and the length becomes 0, no slot
    touched. *)
Theorem remove_at_swaps_last w (list index : Z) b :
  let h := blk_prelude b in
  let n := length h in
  load_prelude w (list_prelude list) = Some b ->
  0 < sizeof_T -> 1 <= n <= capacity h ->
  sizeof_ListPrelude + capacity h * sizeof_T <= blk_size b ->
  n < size_modulus ->
  0 <= index < n ->
  exists w',
    list_remove_at sizeof_T w list index = Done w' /\
    list_len w' list = Some (n - 1) /\
    list_cap w' list = Some (capacity h) /\
    allocators w' = allocators w /\ calls w' = calls w /\
    (index = n - 1 ->
       store_length w (list_prelude list) (n - 1) = Some w' /\
       forall j, read_slot sizeof_T w' list j = read_slot sizeof_T w list j) /\
    (index <> n - 1 ->
       1 < n /\
       read_slot sizeof_T w' list index = read_slot sizeof_T w list (n - 1) /\
       forall j, j <> index -> read_slot sizeof_T w' list j = read_slot sizeof_T w list j) /\
    (n = 1 ->
       index = 0 /\ list_len w' list = Some 0 /\
       store_length w (list_prelude list) 0 = Some w').
Proof.
  intros h n Hb Hs Hn Hsize Hfit Hi.
  pose proof Hb as Hb'. apply load_prelude_Some in Hb' as (Hp & Hhp & Hsz).
  set (b1 := set_prelude b {| capacity := capacity h; length := n - 1;
                              allocator := allocator h |}).
  assert (Hw : wrap (n - 1) = n - 1) by (apply wrap_small; lia).
  assert (Hst : store_length w (list_prelude list) (n - 1)
                = Some (set_heap w (<[list_prelude list := b1]> (heap w))))
    by (apply store_length_Some; exact Hb).
  assert (Hb1 : load_prelude (set_heap w (<[list_prelude list := b1]> (heap w)))
                  (list_prelude list) = Some b1)
    by (apply load_prelude_insert; assumption).
  unfold list_remove_at. rewrite Hb. fold h n. rewrite Hw, Hst.
  destruct (Z.eqb_spec index (n - 1)) as [Heq|Hne].
  - eexists. split; [reflexivity|].
    split; [unfold list_len; now rewrite Hb1|].
    split; [unfold list_cap; now rewrite Hb1|].
    split; [reflexivity|]. split; [reflexivity|].
    split; [intros _; split; [reflexivity|]|].
    { intros j. unfold read_slot. now rewrite Hb1, Hb. }
    split; [intros Hc; contradiction|].
    intros H1. split; [lia|]. split.
    + unfold list_len. rewrite Hb1. simpl. f_equal. lia.
    + replace 0 with (n - 1) by lia. exact Hst.
  - destruct (Z.ltb_spec 1 n) as [Hgt|]; [|lia].
    rewrite Hb1. unfold memcpy_slot.
    assert (Hfi : slot_fits sizeof_T (blk_size b1) index = true).
    { apply slot_fits_iff. simpl. unfold sizeof_ListPrelude in *. nia. }
    assert (Hfl : slot_fits sizeof_T (blk_size b1) (n - 1) = true).
    { apply slot_fits_iff. simpl. unfold sizeof_ListPrelude in *. nia. }
    rewrite Hfi, Hfl. simpl andb. cbv iota.
    set (s2 := match blk_slots b1 !! (n - 1) with
               | Some v => <[index := v]> (blk_slots b1)
               | None => delete index (blk_slots b1)
               end).
    assert (Hb2 : load_prelude
              (set_heap (set_heap w (<[list_prelude list := b1]> (heap w)))
                 (<[list_prelude list := set_slots b1 s2]>
                    (heap (set_heap w (<[list_prelude list := b1]> (heap w))))))
              (list_prelude list) = Some (set_slots b1 s2))
      by (apply load_prelude_insert; assumption).
    eexists. split; [reflexivity|].
    split; [unfold list_len; now rewrite Hb2|].
    split; [unfold list_cap; now rewrite Hb2|].
    split; [reflexivity|]. split; [reflexivity|].
    split; [intros Hc; contradiction|].
    split; [|intros H1; lia].
    intros _. split; [exact Hgt|].
    unfold read_slot. rewrite Hb2, Hb. simpl blk_size. simpl blk_slots.
    simpl in Hfi, Hfl. rewrite Hfi, Hfl.
    split.
    + unfold s2. simpl blk_slots.
      destruct (blk_slots b !! (n - 1)) as [v|].
      * apply lookup_insert_eq.
      * apply lookup_delete_eq.
    + intros j Hj. destruct (slot_fits sizeof_T (blk_size b) j); [|reflexivity].
      unfold s2. simpl blk_slots.
      destruct (blk_slots b !! (n - 1)) as [v|].
      * apply lookup_insert_ne. congruence.
      * apply lookup_delete_ne. congruence.
Qed.

(** C6: on a list with [0 < length], [list_pop_back] completes and the
    world it leaves differs from the one it found in the length field
    alone, which is lower by exactly one: capacity, allocator reference,
    slots, allocator states and calls are the same. *)
Theorem pop_back_decrements_length w (a : Z) b :
  let h := blk_prelude b in
  load_prelude w (list_prelude a) = Some b ->
  0 < length h < size_modulus ->
  exists w',
    list_pop_back w a = Done w' /\
    w' = set_heap w (<[list_prelude a :=
           set_prelude b {| capacity := capacity h; length := length h - 1;
                            allocator := allocator h |}]> (heap w)) /\
    list_len w' a = Some (length h - 1) /\
    list_cap w' a = Some (capacity h) /\
    (forall i, read_slot sizeof_T w' a i = read_slot sizeof_T w a i).
Proof.
  intros h Hb Hlen.
  pose proof Hb as Hb'. apply load_prelude_Some in Hb' as (Hp & Hhp & Hsz).
  set (b1 := set_prelude b {| capacity := capacity h; length := length h - 1;
                              allocator := allocator h |}).
  assert (Hb1 : load_prelude (set_heap w (<[list_prelude a := b1]> (heap w)))
                  (list_prelude a) = Some b1)
    by (apply load_prelude_insert; assumption).
  exists (set_heap w (<[list_prelude a := b1]> (heap w))).
  split.
  { unfold list_pop_back. change (array_header a) with (list_prelude a).
    rewrite Hb. fold h. rewrite wrap_small by lia.
    now rewrite (store_length_Some w _ b _ Hb). }
  split; [reflexivity|].
  split; [unfold list_len; now rewrite Hb1|].
  split; [unfold list_cap; now rewrite Hb1|].
  intros i. unfold read_slot. now rewrite Hb1, Hb.
Qed.

End ResizeRemove.

(** ** The invariant [0 <= length <= capacity] *)

Section Invariant.

Context {T Ctx : Type}.
Variable sizeof_T : Z.
Variable default_allocator : Z.

Implicit Types (w : World T Ctx) (b : Block T).

Lemma wrap_le (z : Z) : 0 <= z -> wrap z <= z.
Proof. intros Hz. unfold wrap. apply Z.mod_le; [exact Hz | reflexivity]. Qed.

Lemma invariant_after_store_length w p b v :
  load_prelude w p = Some b -> 0 <= v <= capacity (blk_prelude b) ->
  exists w', store_length w p v = Some w' /\
    length_within_capacity w' (prelude_end p).
Proof.
  intros Hb Hv. rewrite (store_length_Some w p b v Hb). eexists. split; [reflexivity|].
  apply load_prelude_Some in Hb as (Hp & _ & Hsz).
  eexists. rewrite list_prelude_prelude_end.
  split; [apply load_prelude_insert; assumption | exact Hv].
Qed.

(** C9: [0 <= length <= capacity] holds for the list that [create_list]
    returns, and each operation that completes on a list with the
    invariant leaves a list with it: [list_append], [list_resize],
    [list_clear] (which always completes), [list_remove_at] with an index
    below a length of at least 1, and [list_pop_back] on a length above 0
    (which always completes). *)
Theorem length_within_capacity_preserved :
  (forall w (stride capacity0 allocator0 l : Z) w',
     0 <= capacity0 ->
     create_list default_allocator w stride capacity0 allocator0 = Done (l, w') ->
     l <> NULL -> length_within_capacity w' l) /\
  (forall (fuel : nat) w (list item_size : Z) (item : T) list' p w',
     length_within_capacity w list ->
     list_append sizeof_T fuel w list item_size item = Done (list', p, w') ->
     length_within_capacity w' list') /\
  (forall (fuel : nat) w (list desired : Z) list' p w',
     length_within_capacity w list ->
     list_resize sizeof_T fuel w list desired = Done (list', p, w') ->
     length_within_capacity w' list') /\
  (forall w (list : Z),
     length_within_capacity w list ->
     exists w', list_clear w list = Done w' /\ length_within_capacity w' list) /\
  (forall w (list index n : Z) w',
     length_within_capacity w list ->
     list_len w list = Some n -> 1 <= n -> 0 <= index < n ->
     list_remove_at sizeof_T w list index = Done w' ->
     length_within_capacity w' list) /\
  (forall w (list n : Z),
     length_within_capacity w list ->
     list_len w list = Some n -> 0 < n ->
     exists w', list_pop_back w list = Done w' /\ length_within_capacity w' list).
Proof.
  split; [|split; [|split; [|split; [|split]]]].
  - intros w stride capacity0 allocator0 l w' Hc H Hl.
    apply create_list_Done in H; [|exact Hl].
    eexists. split; [exact H|]. simpl. lia.
  - intros fuel w list item_size item list' p w' _ H.
    unfold list_append in H.
    destruct (list_ensure_capacity _ _ _ _ _ _) as [[l1 w1]| |] eqn:E; try discriminate.
    apply ensure_capacity_post in E as (b & b1 & _ & Hb1 & Hlen & _ & Hcap).
    rewrite Hb1 in H. unfold write_slot in H. rewrite Hb1 in H.
    destruct (slot_fits _ _ _) eqn:Hfit; [|discriminate].
    apply slot_fits_iff in Hfit as [Hn _].
    pose proof Hb1 as Hb1'. apply load_prelude_Some in Hb1' as (Hp & _ & Hsz).
    set (b2 := set_slots b1 _) in H.
    destruct (invariant_after_store_length
                (set_heap w1 (<[list_prelude l1 := b2]> (heap w1))) (list_prelude l1) b2
                (wrap (length (blk_prelude b1) + 1)))
      as (w3 & Hst & Hinv).
    { apply load_prelude_insert; assumption. }
    { simpl. rewrite Hlen. pose proof (wrap_range (length (blk_prelude b) + 1)). lia. }
    rewrite Hst in H. injection H as <- _ <-.
    now rewrite prelude_end_list_prelude in Hinv.
  - intros fuel w list desired list' p w' _ H.
    unfold list_resize in H.
    destruct (list_ensure_capacity _ _ _ _ _ _) as [[l1 w1]| |] eqn:E; try discriminate.
    apply ensure_capacity_post in E as (b & b1 & _ & Hb1 & Hlen & _ & Hcap).
    rewrite Hb1 in H.
    destruct (invariant_after_store_length w1 (list_prelude l1) b1
                (wrap (length (blk_prelude b1) + desired)) Hb1)
      as (w3 & Hst & Hinv).
    { rewrite Hlen. pose proof (wrap_range (length (blk_prelude b) + desired)). lia. }
    rewrite Hst in H. injection H as <- _ <-.
    now rewrite prelude_end_list_prelude in Hinv.
  - intros w list (b & Hb & Hlen).
    destruct (invariant_after_store_length w (list_prelude list) b 0 Hb)
      as (w' & Hst & Hinv); [lia|].
    exists w'. unfold list_clear. rewrite Hst.
    now rewrite prelude_end_list_prelude in Hinv.
  - intros w list index n w' (b & Hb & Hlen) Hn Hn1 Hi H.
    unfold list_len in Hn. rewrite Hb in Hn. injection Hn as Hn.
    assert (Hw : 0 <= wrap (n - 1) <= capacity (blk_prelude b)).
    { pose proof (wrap_range (n - 1)). pose proof (wrap_le (n - 1)). lia. }
    destruct (invariant_after_store_length w (list_prelude list) b (wrap (n - 1)) Hb Hw)
      as (w1 & Hst & Hinv).
    rewrite prelude_end_list_prelude in Hinv.
    unfold list_remove_at in H. rewrite Hb, Hn, Hst in H.
    destruct (index =? wrap (n - 1)); [injection H as <-; exact Hinv|].
    destruct (1 <? n); [|injection H as <-; exists b; split; [exact Hb | exact Hlen]].
    destruct Hinv as (b1 & Hb1 & Hlen1). rewrite Hb1 in H.
    unfold memcpy_slot in H.
    destruct (_ && _); [|discriminate]. injection H as <-.
    apply load_prelude_Some in Hb1 as Hb1'. destruct Hb1' as (Hp & _ & Hsz).
    eexists. split; [apply load_prelude_insert; [exact Hp | exact Hsz]|].
    exact Hlen1.
  - intros w list n (b & Hb & Hlen) Hn Hn0.
    unfold list_len in Hn. rewrite Hb in Hn. injection Hn as Hn.
    assert (Hw : 0 <= wrap (n - 1) <= capacity (blk_prelude b)).
    { pose proof (wrap_range (n - 1)). pose proof (wrap_le (n - 1)). lia. }
    destruct (invariant_after_store_length w (list_prelude list) b (wrap (n - 1)) Hb Hw)
      as (w1 & Hst & Hinv).
    rewrite prelude_end_list_prelude in Hinv.
    exists w1. unfold list_pop_back. change (array_header list) with (list_prelude list).
    rewrite Hb, Hn, Hst. auto.
Qed.

End Invariant.

(** ** The theorems at work on a list of two [int]s *)

Lemma list_resize_returns_end_witness :
  exists w',
    list_resize 4 64 two_ints int_list 3 = Done (int_list, int_list + 5 * 4, w') /\
    list_len w' int_list = Some (2 + 3) /\
    int_list + 5 * 4 = slot_addr 4 int_list (2 + 3) /\
    int_list + 5 * 4 <> slot_addr 4 int_list 2.
Proof.
  destruct (list_resize 4 64 two_ints int_list 3) as [[[l p] w']| |] eqn:E;
    [|vm_compute in E; discriminate|vm_compute in E; discriminate].
  pose proof (@list_resize_returns_end Z positive 4 64 two_ints int_list 3 2 l p w' E
                eq_refl ltac:(lia) ltac:(lia) ltac:(lia) ltac:(reflexivity)) as H.
  vm_compute in E. injection E as <- <- <-.
  eexists. split; [reflexivity|]. exact H.
Defined.

(** Resize by three, then fill through the pointer that came back: the
    three values land in slots 5, 6 and 7, and the new slots 2, 3 and 4,
    which the length now covers, are still unwritten. *)
Example resize_then_fill_misses :
  exists p w1 w2 w3 w4,
    list_resize 4 64 two_ints int_list 3 = Done (int_list, p, w1) /\
    write_at 4 w1 int_list p 0 7 = Some w2 /\
    write_at 4 w2 int_list p 1 8 = Some w3 /\
    write_at 4 w3 int_list p 2 9 = Some w4 /\
    list_len w4 int_list = Some 5 /\
    read_slot 4 w4 int_list 2 = None /\
    read_slot 4 w4 int_list 3 = None /\
    read_slot 4 w4 int_list 4 = None /\
    read_slot 4 w4 int_list 5 = Some 7.
Proof.
  eexists _, _, _, _, _.
  split; [vm_compute; reflexivity|].
  split; [vm_compute; reflexivity|].
  split; [vm_compute; reflexivity|].
  split; [vm_compute; reflexivity|].
  repeat split; vm_compute; reflexivity.
Qed.

(** On a list filled to its capacity the pointer that [list_resize] yields
    is outside the block, and a store through it is undefined. *)
Example resize_then_fill_overruns :
  exists p w1,
    list_resize 4 64 (int_list_world 4 [] (bump_allocator 4096)) int_list 4
      = Done (int_list, p, w1) /\
    list_len w1 int_list = Some 4 /\ list_cap w1 int_list = Some 4 /\
    write_at 4 w1 int_list p 0 7 = None.
Proof.
  eexists _, _. split; [vm_compute; reflexivity|].
  repeat split; vm_compute; reflexivity.
Qed.

Lemma remove_at_swaps_last_witness :
  exists w',
    list_remove_at 4 three_ints int_list 0 = Done w' /\
    list_len w' int_list = Some 2 /\
    read_slot 4 w' int_list 0 = Some 30 /\
    read_slot 4 w' int_list 1 = Some 20.
Proof.
  destruct (@remove_at_swaps_last Z positive 4 three_ints int_list 0
              (int_list_block 16 [10; 20; 30]))
    as (w' & Hrun & Hlen & _ & _ & _ & _ & Hswap & _);
    [reflexivity | lia | simpl; lia | simpl; lia | reflexivity | simpl; lia |].
  destruct Hswap as (_ & Hmoved & Hrest); [simpl; lia|].
  exists w'. split; [exact Hrun|]. split; [exact Hlen|].
  split; [rewrite Hmoved; reflexivity | rewrite Hrest by lia; reflexivity].
Defined.

Example remove_at_last_only_shrinks :
  exists w',
    list_remove_at 4 three_ints int_list 2 = Done w' /\
    list_len w' int_list = Some 2 /\
    read_slot 4 w' int_list 0 = Some 10 /\ read_slot 4 w' int_list 1 = Some 20 /\
    read_slot 4 w' int_list 2 = Some 30.
Proof. eexists. split; [vm_compute; reflexivity|]. repeat split; vm_compute; reflexivity. Qed.

Lemma pop_back_decrements_length_witness :
  exists w',
    list_pop_back three_ints int_list = Done w' /\
    list_len w' int_list = Some 2 /\ list_cap w' int_list = Some 16.
Proof.
  destruct (@pop_back_decrements_length Z positive 4 three_ints int_list
              (int_list_block 16 [10; 20; 30]))
    as (w' & Hrun & _ & Hlen & Hcap & _); [reflexivity | simpl; split; reflexivity |].
  exists w'. split; [exact Hrun|]. split; [exact Hlen | exact Hcap].
Defined.

Lemma length_within_capacity_preserved_witness :
  exists list' p w',
    list_append 4 64 (int_list_world 2 [10; 20] (bump_allocator 4096)) int_list 4 30
      = Done (list', p, w') /\
    length_within_capacity w' list'.
Proof.
  destruct (list_append 4 64 (int_list_world 2 [10; 20] (bump_allocator 4096)) int_list 4 30)
    as [[[l p] w']| |] eqn:E;
    [|vm_compute in E; discriminate|vm_compute in E; discriminate].
  exists l, p, w'. split; [reflexivity|].
  apply (proj1 (proj2 (@length_within_capacity_preserved Z positive 4 8))
           64%nat (int_list_world 2 [10; 20] (bump_allocator 4096)) int_list 4 30 l p w');
    [|exact E].
  exists (int_list_block 2 [10; 20]). split; [reflexivity | simpl; lia].
Defined.

(** ** What the operations leave in the heap and in the record of calls *)

Section Trace.

Context {T Ctx : Type}.
Variable sizeof_T : Z.

Implicit Types (w : World T Ctx) (b : Block T) (vs : Datatypes.list T).

Lemma same_functions_refl (a : Allocator Ctx) : same_functions a a.
Proof. repeat split. Qed.

Lemma same_functions_with_context (a : Allocator Ctx) c : same_functions a (with_context a c).
Proof. repeat split. Qed.

Lemma same_functions_trans (a a' a'' : Allocator Ctx) :
  same_functions a a' -> same_functions a' a'' -> same_functions a a''.
Proof. intros (? & ? & ?) (? & ? & ?). repeat split; congruence. Qed.

(** A growing [list_ensure_capacity] moves the one block of the list. *)
Lemma ensure_capacity_dom fuel w list item_count item_size list' w' :
  list_ensure_capacity sizeof_T fuel w list item_count item_size = Done (list', w') ->
  list' = list /\ w' = w \/
  dom (heap w') = {[list_prelude list']} ∪ (dom (heap w) ∖ {[list_prelude list]}).
Proof.
  intros H. unfold list_ensure_capacity in H.
  destruct (load_prelude w (list_prelude list)) as [b|] eqn:Hb; [|discriminate].
  destruct (capacity (blk_prelude b) <? _);
    [|left; injection H as <- <-; now rewrite prelude_end_list_prelude].
  right.
  destruct (grow_loop _ _ _) as [nc|]; [|discriminate].
  destruct (allocators w !! _) as [a|]; [|discriminate].
  unfold call_realloc in H.
  destruct (realloc a _ _ _) as [q c].
  destruct (store_capacity _ q nc) as [w2|] eqn:Hs; [|discriminate].
  injection H as <- <-.
  unfold store_capacity in Hs.
  destruct (load_prelude _ q) as [b1|] eqn:Hb1; [|discriminate].
  injection Hs as <-.
  apply load_prelude_Some in Hb1 as (Hq & _ & _).
  apply load_prelude_Some in Hb as (_ & Hhp & _).
  rewrite list_prelude_prelude_end. simpl.
  destruct (Z.eqb_spec q NULL); [contradiction|].
  rewrite Hhp, !dom_insert_L, dom_delete_L.
  now rewrite (assoc_L (∪)), (idemp_L (∪)).
Qed.

(** An append changes the heap and the record of calls as its call of
    [list_ensure_capacity] does; the stores that follow stay in the block. *)
Lemma list_append_inv fuel w list item_size item list' p w' :
  list_append sizeof_T fuel w list item_size item = Done (list', p, w') ->
  exists w1,
    list_ensure_capacity sizeof_T fuel w list 1 item_size = Done (list', w1) /\
    dom (heap w') = dom (heap w1) /\
    calls w' = calls w1 /\ allocators w' = allocators w1.
Proof.
  intros H. unfold list_append in H.
  destruct (list_ensure_capacity _ _ _ _ _ _) as [[l1 w1]| |]; try discriminate.
  destruct (load_prelude w1 (list_prelude l1)) as [b1|] eqn:Hb1; [|discriminate].
  destruct (write_slot _ _ _ _ _) as [w2|] eqn:Hw; [|discriminate].
  destruct (store_length _ _ _) as [w3|] eqn:Hs; [|discriminate].
  injection H as H1 H2 H3. subst list' p w'. exists w1. split; [reflexivity|].
  unfold write_slot in Hw. rewrite Hb1 in Hw.
  destruct (slot_fits _ _ _); [|discriminate]. injection Hw as <-.
  unfold store_length in Hs.
  match type of Hs with
  | context [load_prelude ?x ?y] => destruct (load_prelude x y) as [b2|]; [|discriminate]
  end.
  injection Hs as <-.
  apply load_prelude_Some in Hb1 as (_ & Hhp & _). simpl.
  split; [|split; reflexivity].
  rewrite dom_insert_lookup_L by (rewrite lookup_insert_eq; eauto).
  apply dom_insert_lookup_L; eauto.
Qed.

(** One append, with what it does to the record of calls, to the
    allocator's state and to the set of live blocks. *)
Lemma list_append_step_trace fuel w list b a item :
  let h := blk_prelude b in
  load_prelude w (list_prelude list) = Some b ->
  0 < sizeof_T -> 1 <= capacity h -> 0 <= length h <= capacity h ->
  blk_size b = sizeof_ListPrelude + capacity h * sizeof_T ->
  blk_size b < size_modulus ->
  (length h = capacity h ->
   sizeof_ListPrelude + 2 * capacity h * sizeof_T < size_modulus) ->
  allocators w !! allocator h = Some a ->
  (forall p size c, (realloc a p size c).1 <> NULL) ->
  (64 <= fuel)%nat ->
  exists list' w' b' a' rs,
    list_append sizeof_T fuel w list sizeof_T item
      = Done (list', slot_addr sizeof_T list' (length h), w') /\
    load_prelude w' (list_prelude list') = Some b' /\
    length (blk_prelude b') = length h + 1 /\
    blk_size b' = sizeof_ListPrelude + capacity (blk_prelude b') * sizeof_T /\
    allocator (blk_prelude b') = allocator h /\
    blk_slots b' !! length h = Some item /\
    (forall i, 0 <= i < length h -> blk_slots b' !! i = blk_slots b !! i) /\
    allocators w' !! allocator h = Some a' /\ same_functions a a' /\
    calls w' = calls w ++ rs /\
    (length h < capacity h /\ rs = [] /\ list' = list /\
       capacity (blk_prelude b') = capacity h \/
     length h = capacity h /\ capacity (blk_prelude b') = 2 * capacity h /\
       exists size q, rs = [CallRealloc (allocator h) (list_prelude list) size q]) /\
    (dom (heap w) = {[list_prelude list]} -> dom (heap w') = {[list_prelude list']}).
Proof.
  intros h Hb Hs Hc Hlen Hsize Hlim Hfit Ha Hre Hf.
  destruct (list_append_step sizeof_T fuel w list b a item)
    as (list' & w' & b' & _ & Hrun & Hb' & Hlen' & Hcap & Hsize' & Halloc & Hitem
        & Hold & _); try assumption.
  fold h in Hrun, Hlen', Hcap, Hitem, Hold, Halloc.
  destruct (list_append_inv _ _ _ _ _ _ _ _ Hrun) as (w1 & Hens & Hdom & Hcalls & Hal).
  pose proof (ensure_capacity_dom _ _ _ _ _ _ _ Hens) as Hd.
  apply ensure_capacity_Done in Hens as (b0 & Hb0 & Hcase).
  rewrite Hb in Hb0. injection Hb0 as <-. cbv zeta in Hcase. fold h in Hcase.
  assert (Hw : wrap (length h + 1) = length h + 1)
    by (apply wrap_small; unfold sizeof_ListPrelude in *; nia).
  rewrite Hw in Hcase.
  destruct Hcase as [(Hle & -> & ->) |
    (Hlt & nc & a0 & q & c & _ & Ha0 & _ & _ & _ & -> & _ & Hal1 & Hcalls1)].
  - exists list, w', b', a, [].
    split; [exact Hrun|]. split; [exact Hb'|]. split; [exact Hlen'|].
    split; [exact Hsize'|]. split; [exact Halloc|]. split; [exact Hitem|].
    split; [exact Hold|]. split; [rewrite Hal; exact Ha|].
    split; [apply same_functions_refl|].
    split; [rewrite Hcalls; now rewrite app_nil_r|].
    split; [|intros Hone; rewrite Hdom; exact Hone].
    left. destruct Hcap as [[_ Hc'] | [? _]]; [|lia]. repeat split; (lia || assumption).
  - rewrite Ha in Ha0. injection Ha0 as <-.
    exists (prelude_end q), w', b', (with_context a c), [CallRealloc (allocator h)
      (list_prelude list) (wrap (sizeof_ListPrelude + wrap (nc * sizeof_T))) q].
    split; [exact Hrun|]. split; [exact Hb'|]. split; [exact Hlen'|].
    split; [exact Hsize'|]. split; [exact Halloc|]. split; [exact Hitem|].
    split; [exact Hold|].
    split; [rewrite Hal, Hal1; apply lookup_insert_eq|].
    split; [apply same_functions_with_context|].
    split; [rewrite Hcalls; exact Hcalls1|].
    split.
    + right. destruct Hcap as [[? _] | [Heq Hc']]; [lia|].
      split; [exact Heq|]. split; [exact Hc'|]. eauto.
    + intros Hone. rewrite Hdom.
      destruct Hd as [[_ ->] | ->].
      * exfalso. apply (f_equal List.length) in Hcalls1.
        rewrite length_app in Hcalls1. simpl in Hcalls1. lia.
      * rewrite Hone, difference_diag_L. apply (right_id_L ∅ (∪)).
Qed.

End Trace.

Section TraceRuns.

Context {T Ctx : Type}.
Variable sizeof_T : Z.

Implicit Types (w : World T Ctx) (b : Block T) (vs : Datatypes.list T).

(** A run of appends with its record of calls: only reallocations, all
    through the list's own allocator, each one doubling the capacity. *)
Lemma append_all_trace vs : forall fuel w list b a vs0 bound,
  let h := blk_prelude b in
  load_prelude w (list_prelude list) = Some b ->
  0 < sizeof_T -> 1 <= capacity h -> length h <= capacity h ->
  blk_size b = sizeof_ListPrelude + capacity h * sizeof_T ->
  holds b vs0 ->
  capacity h <= bound ->
  2 * (Z.of_nat (List.length vs0) + Z.of_nat (List.length vs)) <= bound ->
  sizeof_ListPrelude + bound * sizeof_T < size_modulus ->
  allocators w !! allocator h = Some a ->
  (forall p size c, (realloc a p size c).1 <> NULL) ->
  (64 <= fuel)%nat ->
  exists list' w' b' a' rs,
    append_all sizeof_T fuel w list vs = Done (list', w') /\
    load_prelude w' (list_prelude list') = Some b' /\
    holds b' (vs0 ++ vs) /\
    length (blk_prelude b') <= capacity (blk_prelude b') /\
    blk_size b' = sizeof_ListPrelude + capacity (blk_prelude b') * sizeof_T /\
    allocator (blk_prelude b') = allocator h /\
    allocators w' !! allocator h = Some a' /\ same_functions a a' /\
    calls w' = calls w ++ rs /\ Forall (realloc_of (allocator h)) rs /\
    capacity (blk_prelude b') = capacity h * 2 ^ Z.of_nat (List.length rs) /\
    (rs <> [] -> capacity (blk_prelude b') < 2 * length (blk_prelude b')) /\
    (rs = [] -> list' = list) /\
    (dom (heap w) = {[list_prelude list]} -> dom (heap w') = {[list_prelude list']}).
Proof.
  induction vs as [|v vs IH];
    intros fuel w list b a vs0 bound h Hb Hs Hc Hle Hsize Hh Hcb Hn Hfit Ha Hre Hf.
  - exists list, w, b, a, []. rewrite !app_nil_r. simpl.
    split; [reflexivity|]. split; [exact Hb|]. split; [exact Hh|]. split; [exact Hle|].
    split; [exact Hsize|]. split; [reflexivity|]. split; [exact Ha|].
    split; [apply same_functions_refl|]. split; [reflexivity|].
    split; [constructor|]. split; [fold h; lia|].
    split; [intros Hc'; now contradiction Hc'|]. auto.
  - pose proof Hh as [Hlen _]. fold h in Hlen. simpl List.length in Hn.
    destruct (list_append_step_trace sizeof_T fuel w list b a v)
      as (l1 & w1 & b1 & a1 & rs1 & Hrun1 & Hb1 & Hlen1 & Hsize1 & Halloc1 & Hitem1
          & Hold1 & Ha1 & Hsame1 & Hcalls1 & Hcase1 & Hdom1); try assumption.
    { fold h. lia. }
    { rewrite Hsize. fold h. unfold sizeof_ListPrelude in *. nia. }
    { fold h. intros Heq. unfold sizeof_ListPrelude in *. nia. }
    fold h in Hrun1, Hlen1, Hitem1, Hold1, Ha1, Hcase1, Halloc1, Hcalls1.
    assert (Hcap1 : capacity (blk_prelude b1) = capacity h * 2 ^ Z.of_nat (List.length rs1)
                    /\ length h + 1 <= capacity (blk_prelude b1)
                    /\ capacity (blk_prelude b1) <= bound
                    /\ Forall (realloc_of (allocator h)) rs1
                    /\ (rs1 <> [] -> capacity (blk_prelude b1) = 2 * length h)
                    /\ (rs1 = [] -> l1 = list)).
    { destruct Hcase1 as [(Hlt & -> & -> & ->) | (Heq & -> & size & q & ->)].
      - simpl. repeat split; try lia; try constructor. intros Hc'. now contradiction Hc'.
      - simpl. repeat split; try lia.
        + repeat constructor.
        + discriminate. }
    destruct Hcap1 as (Hcap1 & Hroom1 & Hbound1 & Hall1 & Hgrew1 & Hsame_l1).
    destruct Hsame1 as (Hsa & Hsr & Hsf).
    destruct (IH fuel w1 l1 b1 a1 (vs0 ++ [v]) bound)
      as (l2 & w2 & b2 & a2 & rs2 & Hrun2 & Hb2 & Hh2 & Hle2 & Hsize2 & Halloc2 & Ha2
          & Hsame2 & Hcalls2 & Hall2 & Hcap2 & Hgrew2 & Hsame_l2 & Hdom2); try assumption.
    + lia.
    + lia.
    + eapply holds_snoc; eassumption.
    + rewrite length_app. simpl. lia.
    + rewrite Halloc1. exact Ha1.
    + rewrite Hsr. exact Hre.
    + rewrite Halloc1 in Halloc2, Ha2, Hall2.
      rewrite <- app_assoc in Hh2. simpl in Hh2.
      exists l2, w2, b2, a2, (rs1 ++ rs2). simpl. rewrite Hrun1.
      split; [exact Hrun2|]. split; [exact Hb2|]. split; [exact Hh2|].
      split; [exact Hle2|]. split; [exact Hsize2|]. split; [exact Halloc2|].
      split; [exact Ha2|].
      split; [eapply same_functions_trans; [|exact Hsame2]; repeat split; assumption|].
      split; [rewrite Hcalls2, Hcalls1; now rewrite app_assoc|].
      split; [apply Forall_app; split; assumption|].
      split.
      { rewrite Hcap2, Hcap1, length_app, Nat2Z.inj_add, Z.pow_add_r by lia. lia. }
      split.
      { intros Hne. destruct rs2 as [|c2 rs2].
        - rewrite app_nil_r in Hne. simpl in Hcap2. rewrite Z.mul_1_r in Hcap2.
          rewrite Hcap2, (Hgrew1 Hne).
          pose proof Hh2 as [Hlen2 _]. rewrite Hlen2, length_app. simpl List.length.
          lia.
        - apply Hgrew2. discriminate. }
      split.
      { intros Hnil. apply app_eq_nil in Hnil as [H1 H2].
        rewrite (Hsame_l2 H2). exact (Hsame_l1 H1). }
      intros Hone. apply Hdom2, Hdom1, Hone.
Qed.

End TraceRuns.

(** ** Construction and release *)

Section Lifecycle.

Context {T Ctx : Type}.
Variable sizeof_T : Z.
Variable default_allocator : Z.

Implicit Types (w : World T Ctx) (b : Block T) (vs : Datatypes.list T).

Lemma unusable_of_no_prelude w list :
  load_prelude w (list_prelude list) = None -> unusable sizeof_T w list.
Proof.
  intros H. unfold unusable, list_len, list_cap, read_slot, write_slot, list_clear,
    store_length, list_ensure_capacity, list_append, list_resize, list_remove_at,
    list_free, list_ensure_capacity.
  rewrite H. repeat split; reflexivity.
Qed.

(** X1: when the allocator's alloc returns [NULL], [create_list] returns
    [NULL]: it stores nothing, the live blocks are the ones there were, and
    the one call made is that failed alloc, for
    [sizeof(ListPrelude) + stride * capacity] bytes in [size_t]. *)
Theorem create_list_alloc_failure w (stride capacity0 allocator0 : Z) (a : Allocator Ctx) :
  let aid := if allocator0 =? NULL then default_allocator else allocator0 in
  let size := wrap (sizeof_ListPrelude + wrap (stride * capacity0)) in
  allocators w !! aid = Some a ->
  (alloc a size (context a)).1 = NULL ->
  exists w',
    create_list default_allocator w stride capacity0 allocator0 = Done (NULL, w') /\
    heap w' = heap w /\
    calls w' = calls w ++ [CallAlloc aid size NULL].
Proof.
  intros aid size Ha Hnull. unfold create_list. fold aid. rewrite Ha. fold size.
  unfold call_alloc. destruct (alloc a size (context a)) as [p c]. simpl in Hnull.
  subst p. simpl. eexists. split; [reflexivity|]. split; reflexivity.
Qed.

(** The three field stores leave the set of live blocks, the allocators
    and the record of calls alone. *)
Lemma store_capacity_frame w p v w' :
  store_capacity w p v = Some w' ->
  dom (heap w') = dom (heap w) /\ allocators w' = allocators w /\ calls w' = calls w.
Proof.
  unfold store_capacity. destruct (load_prelude w p) as [b|] eqn:Hb; [|discriminate].
  intros [= <-]. apply load_prelude_Some in Hb as (_ & Hhp & _). simpl.
  split; [apply dom_insert_lookup_L; eauto | split; reflexivity].
Qed.

Lemma store_length_frame w p v w' :
  store_length w p v = Some w' ->
  dom (heap w') = dom (heap w) /\ allocators w' = allocators w /\ calls w' = calls w.
Proof.
  unfold store_length. destruct (load_prelude w p) as [b|] eqn:Hb; [|discriminate].
  intros [= <-]. apply load_prelude_Some in Hb as (_ & Hhp & _). simpl.
  split; [apply dom_insert_lookup_L; eauto | split; reflexivity].
Qed.

Lemma store_allocator_frame w p v w' :
  store_allocator w p v = Some w' ->
  dom (heap w') = dom (heap w) /\ allocators w' = allocators w /\ calls w' = calls w.
Proof.
  unfold store_allocator. destruct (load_prelude w p) as [b|] eqn:Hb; [|discriminate].
  intros [= <-]. apply load_prelude_Some in Hb as (_ & Hhp & _). simpl.
  split; [apply dom_insert_lookup_L; eauto | split; reflexivity].
Qed.

(** A [create_list] whose alloc succeeds makes that one call and adds
    one block. *)
Lemma create_list_trace w stride capacity0 allocator0 a l w' :
  let aid := if allocator0 =? NULL then default_allocator else allocator0 in
  let size := wrap (sizeof_ListPrelude + wrap (stride * capacity0)) in
  let p := (alloc a size (context a)).1 in
  allocators w !! aid = Some a -> p <> NULL ->
  create_list default_allocator w stride capacity0 allocator0 = Done (l, w') ->
  l = prelude_end p /\
  calls w' = calls w ++ [CallAlloc aid size p] /\
  dom (heap w') = {[p]} ∪ dom (heap w) /\
  allocators w' = <[aid := with_context a (alloc a size (context a)).2]> (allocators w).
Proof.
  intros aid size p Ha Hnz H. unfold create_list in H. fold aid size in H.
  rewrite Ha in H. unfold call_alloc in H. subst p.
  destruct (alloc a size (context a)) as [p c] eqn:Hp. simpl in Hnz. simpl.
  destruct (Z.eqb_spec p NULL) as [|_]; [contradiction|].
  destruct (store_capacity _ p capacity0) as [w2|] eqn:H2; [|discriminate].
  destruct (store_length w2 p 0) as [w3|] eqn:H3; [|discriminate].
  destruct (store_allocator w3 p aid) as [w4|] eqn:H4; [|discriminate].
  injection H as <- <-.
  apply store_capacity_frame in H2 as (Hd2 & Ha2 & Hc2).
  apply store_length_frame in H3 as (Hd3 & Ha3 & Hc3).
  apply store_allocator_frame in H4 as (Hd4 & Ha4 & Hc4).
  simpl in Hd2, Ha2, Hc2.
  split; [reflexivity|].
  split; [rewrite Hc4, Hc3, Hc2; reflexivity|].
  split; [rewrite Hd4, Hd3, Hd2; apply dom_insert_L|].
  rewrite Ha4, Ha3, Ha2. reflexivity.
Qed.

(** [list_free] on a live list: one call of the recorded allocator's free,
    on the prelude pointer, and the block is gone. *)
Lemma list_free_Done w list b a :
  load_prelude w (list_prelude list) = Some b ->
  allocators w !! allocator (blk_prelude b) = Some a ->
  exists w',
    list_free w list = Done w' /\
    heap w' = delete (list_prelude list) (heap w) /\
    calls w' = calls w ++ [CallFree (allocator (blk_prelude b)) (list_prelude list)] /\
    allocators w' = <[allocator (blk_prelude b) :=
      with_context a (free a (list_prelude list) (context a))]> (allocators w).
Proof.
  intros Hb Ha. unfold list_free. rewrite Hb, Ha. eexists. split; [reflexivity|].
  repeat split.
Qed.

(** X2: [list_free] hands the block of the list, the prelude pointer and
    not the handle, to the free function of the allocator recorded in the
    prelude, once; after it the handle is dangling: the accessors find
    nothing and every operation on it, a second [list_free] included, is
    undefined behaviour. *)
Theorem list_free_leaves_handle_unusable w (list : Z) b (a : Allocator Ctx) :
  load_prelude w (list_prelude list) = Some b ->
  allocators w !! allocator (blk_prelude b) = Some a ->
  exists w',
    list_free w list = Done w' /\
    calls w' = calls w ++ [CallFree (allocator (blk_prelude b)) (list_prelude list)] /\
    heap w' !! list_prelude list = None /\
    (forall p, p <> list_prelude list -> heap w' !! p = heap w !! p) /\
    unusable sizeof_T w' list.
Proof.
  intros Hb Ha.
  destruct (list_free_Done w list b a Hb Ha) as (w' & Hrun & Hheap & Hcalls & _).
  exists w'. split; [exact Hrun|]. split; [exact Hcalls|].
  split; [rewrite Hheap; apply lookup_delete_eq|].
  split; [intros p Hp; rewrite Hheap; now apply lookup_delete_ne|].
  apply unusable_of_no_prelude. unfold load_prelude.
  destruct (list_prelude list =? NULL); [reflexivity|].
  now rewrite Hheap, lookup_delete_eq.
Qed.

(** X3: a [list_ensure_capacity] that returns another handle has moved the
    block: the handle passed in is dangling from then on, and every
    operation on it is undefined behaviour. *)
Theorem reallocation_invalidates_handle
    (fuel : nat) w (list item_count item_size : Z) list' w' :
  list_ensure_capacity sizeof_T fuel w list item_count item_size = Done (list', w') ->
  list' <> list ->
  heap w' !! list_prelude list = None /\ unusable sizeof_T w' list /\
  exists b', load_prelude w' (list_prelude list') = Some b'.
Proof.
  intros H Hne.
  pose proof (ensure_capacity_dom _ _ _ _ _ _ _ _ H) as Hd.
  apply ensure_capacity_post in H as (b & b' & _ & Hb' & _).
  assert (Hgone : heap w' !! list_prelude list = None).
  { destruct Hd as [[-> _] | Hd]; [contradiction|].
    apply not_elem_of_dom. rewrite Hd.
    assert (Hp : list_prelude list <> list_prelude list') by (unfold list_prelude; lia).
    intros Hin. apply elem_of_union in Hin as [Hin | Hin].
    - apply elem_of_singleton in Hin. contradiction.
    - apply elem_of_difference in Hin as [_ Hin]. apply Hin. now apply elem_of_singleton. }
  split; [exact Hgone|]. split; [|eauto].
  apply unusable_of_no_prelude. unfold load_prelude.
  destruct (list_prelude list =? NULL); [reflexivity|]. now rewrite Hgone.
Qed.

End Lifecycle.

(** ** From [list_new] to [list_free] *)

Section WholeLife.

Context {T Ctx : Type}.
Variable sizeof_T : Z.
Variable default_allocator : Z.

Implicit Types (w : World T Ctx) (b : Block T) (vs : Datatypes.list T).

(** A list made by [list_new_alloc] and then appended to, with all that
    the later statements need to know of it. *)
Lemma list_new_then_append_all (fuel : nat) w (allocator0 : Z) (a : Allocator Ctx) vs :
  let aid := if allocator0 =? NULL then default_allocator else allocator0 in
  let N := Z.of_nat (List.length vs) in
  let size := sizeof_ListPrelude + sizeof_T * DEFAULT_LIST_CAPACITY in
  allocators w !! aid = Some a ->
  (forall size c, (alloc a size c).1 <> NULL) ->
  (forall p size c, (realloc a p size c).1 <> NULL) ->
  0 < sizeof_T ->
  sizeof_ListPrelude + Z.max DEFAULT_LIST_CAPACITY (2 * N) * sizeof_T < size_modulus ->
  (64 <= fuel)%nat ->
  exists list0 w0 list' w' b' a' rs,
    list_new_alloc sizeof_T default_allocator w allocator0 = Done (list0, w0) /\
    append_all sizeof_T fuel w0 list0 vs = Done (list', w') /\
    load_prelude w' (list_prelude list') = Some b' /\
    holds b' vs /\
    length (blk_prelude b') <= capacity (blk_prelude b') /\
    blk_size b' = sizeof_ListPrelude + capacity (blk_prelude b') * sizeof_T /\
    allocator (blk_prelude b') = aid /\
    allocators w' !! aid = Some a' /\ same_functions a a' /\
    calls w0 = calls w ++ [CallAlloc aid size (list_prelude list0)] /\
    calls w' = calls w0 ++ rs /\ Forall (realloc_of aid) rs /\
    capacity (blk_prelude b') = DEFAULT_LIST_CAPACITY * 2 ^ Z.of_nat (List.length rs) /\
    (rs <> [] -> capacity (blk_prelude b') < 2 * N) /\
    (rs = [] -> list' = list0) /\
    (heap w = ∅ -> dom (heap w') = {[list_prelude list']}).
Proof.
  intros aid N size Ha Hal Hre Hs Hfit Hf.
  assert (Hfit16 : sizeof_ListPrelude + sizeof_T * DEFAULT_LIST_CAPACITY < size_modulus).
  { unfold sizeof_ListPrelude, DEFAULT_LIST_CAPACITY in *. nia. }
  assert (Hsize : wrap (sizeof_ListPrelude + wrap (sizeof_T * DEFAULT_LIST_CAPACITY)) = size).
  { unfold size, sizeof_ListPrelude, DEFAULT_LIST_CAPACITY in *.
    rewrite (wrap_small (sizeof_T * 16)) by lia. apply wrap_small. lia. }
  destruct (create_list_succeeds default_allocator w sizeof_T DEFAULT_LIST_CAPACITY
              allocator0 a) as (p & c & w0 & Hnew & Hb0 & Hal0); try assumption.
  { unfold DEFAULT_LIST_CAPACITY. lia. }
  fold aid size in Hb0, Hal0.
  destruct (create_list_trace default_allocator w sizeof_T DEFAULT_LIST_CAPACITY allocator0 a
              (prelude_end p) w0 Ha (Hal _ _) Hnew) as (Hp & Hcalls0 & Hdom0 & _).
  rewrite Hsize in Hp, Hcalls0, Hdom0.
  set (b0 := created size DEFAULT_LIST_CAPACITY aid) in *.
  assert (Hpp : p = (alloc a size (context a)).1).
  { unfold prelude_end in Hp. lia. }
  rewrite <- Hpp in Hcalls0, Hdom0.
  rewrite <- (list_prelude_prelude_end p) in Hb0.
  destruct (append_all_trace sizeof_T vs fuel w0 (prelude_end p) b0 (with_context a c) []
              (Z.max DEFAULT_LIST_CAPACITY (2 * N)))
    as (list' & w' & b' & a' & rs & Hrun & Hb' & Hh' & Hle' & Hsize' & Halloc' & Ha'
        & Hsame' & Hcalls' & Hall' & Hcap' & Hgrew' & Hsame_l & Hdom'); try assumption.
  { simpl. unfold DEFAULT_LIST_CAPACITY. lia. }
  { simpl. unfold DEFAULT_LIST_CAPACITY. lia. }
  { simpl. unfold size. lia. }
  { split; [reflexivity | intros i v Hi; rewrite lookup_nil in Hi; discriminate]. }
  { simpl. lia. }
  { simpl List.length. fold N. lia. }
  { simpl. rewrite Hal0. apply lookup_insert_eq. }
  simpl in Hh', Halloc', Ha', Hall', Hcap', Hgrew'.
  pose proof Hh' as [Hlen' _]. fold N in Hlen'.
  exists (prelude_end p), w0, list', w', b', a', rs.
  split; [exact Hnew|]. split; [exact Hrun|]. split; [exact Hb'|]. split; [exact Hh'|].
  split; [exact Hle'|]. split; [exact Hsize'|]. split; [exact Halloc'|].
  split; [exact Ha'|].
  split; [eapply same_functions_trans; [apply same_functions_with_context | exact Hsame']|].
  split; [rewrite list_prelude_prelude_end; exact Hcalls0|].
  split; [exact Hcalls'|]. split; [exact Hall'|]. split; [exact Hcap'|].
  split; [intros Hne; rewrite <- Hlen'; now apply Hgrew'|].
  split; [exact Hsame_l|].
  intros Hempty. apply Hdom'. rewrite list_prelude_prelude_end, Hdom0, Hempty, dom_empty_L.
  apply (right_id_L ∅ (∪)).
Qed.

(** X4: a whole life.  From a world with no live block, [list_new_alloc]
    (or [list_new], the allocator being the default one), any run of
    appends and [list_free] leave no live block behind; the calls made are
    one alloc of [sizeof(ListPrelude) + sizeof(T) * 16] bytes, then only
    reallocs, then one free of the block the list ended in, every one of
    them to the allocator given at creation. *)
Theorem new_append_free_round_trip
    (fuel : nat) w (allocator0 : Z) (a : Allocator Ctx) vs :
  let aid := if allocator0 =? NULL then default_allocator else allocator0 in
  let N := Z.of_nat (List.length vs) in
  heap w = ∅ ->
  allocators w !! aid = Some a ->
  (forall size c, (alloc a size c).1 <> NULL) ->
  (forall p size c, (realloc a p size c).1 <> NULL) ->
  0 < sizeof_T ->
  sizeof_ListPrelude + Z.max DEFAULT_LIST_CAPACITY (2 * N) * sizeof_T < size_modulus ->
  (64 <= fuel)%nat ->
  exists list0 w0 list' w' w'' rs,
    list_new_alloc sizeof_T default_allocator w allocator0 = Done (list0, w0) /\
    append_all sizeof_T fuel w0 list0 vs = Done (list', w') /\
    list_free w' list' = Done w'' /\
    heap w'' = ∅ /\
    calls w'' = calls w
      ++ [CallAlloc aid (sizeof_ListPrelude + sizeof_T * DEFAULT_LIST_CAPACITY)
            (list_prelude list0)]
      ++ rs ++ [CallFree aid (list_prelude list')] /\
    Forall (realloc_of aid) rs.
Proof.
  intros aid N Hempty Ha Hal Hre Hs Hfit Hf.
  destruct (list_new_then_append_all fuel w allocator0 a vs Ha Hal Hre Hs Hfit Hf)
    as (list0 & w0 & list' & w' & b' & a' & rs & Hnew & Hrun & Hb' & _ & _ & _ & Halloc'
        & Ha' & _ & Hcalls0 & Hcalls' & Hall & _ & _ & _ & Hdom).
  fold aid in Halloc', Ha', Hcalls0, Hall.
  rewrite <- Halloc' in Ha'.
  destruct (list_free_Done w' list' b' a' Hb' Ha') as (w'' & Hfree & Hheap & Hcalls'' & _).
  exists list0, w0, list', w', w'', rs.
  split; [exact Hnew|]. split; [exact Hrun|]. split; [exact Hfree|].
  split.
  - apply dom_empty_iff_L. rewrite Hheap, dom_delete_L, (Hdom Hempty).
    apply difference_diag_L.
  - split; [|exact Hall].
    rewrite Hcalls'', Hcalls', Hcalls0, Halloc'. now rewrite <- !app_assoc.
Qed.

(** X5: the appends pay for their growth by doubling.  After N appends to
    the list that [list_new_alloc] creates, with k reallocations made, the
    capacity is [16 * 2^k], it is at least N, and when k is not 0 it is
    below 2N: the appends reallocate only as often as it takes to reach N
    by doubling 16, and not at all when N is at most 16. *)
Theorem appends_reallocate_by_doubling
    (fuel : nat) w (allocator0 : Z) (a : Allocator Ctx) vs :
  let aid := if allocator0 =? NULL then default_allocator else allocator0 in
  let N := Z.of_nat (List.length vs) in
  allocators w !! aid = Some a ->
  (forall size c, (alloc a size c).1 <> NULL) ->
  (forall p size c, (realloc a p size c).1 <> NULL) ->
  0 < sizeof_T ->
  sizeof_ListPrelude + Z.max DEFAULT_LIST_CAPACITY (2 * N) * sizeof_T < size_modulus ->
  (64 <= fuel)%nat ->
  exists list0 w0 list' w' rs,
    list_new_alloc sizeof_T default_allocator w allocator0 = Done (list0, w0) /\
    append_all sizeof_T fuel w0 list0 vs = Done (list', w') /\
    calls w' = calls w0 ++ rs /\ Forall (realloc_of aid) rs /\
    list_cap w' list' = Some (DEFAULT_LIST_CAPACITY * 2 ^ Z.of_nat (List.length rs)) /\
    N <= DEFAULT_LIST_CAPACITY * 2 ^ Z.of_nat (List.length rs) /\
    (rs <> [] -> DEFAULT_LIST_CAPACITY * 2 ^ Z.of_nat (List.length rs) < 2 * N) /\
    (N <= DEFAULT_LIST_CAPACITY -> rs = [] /\ list' = list0).
Proof.
  intros aid N Ha Hal Hre Hs Hfit Hf.
  destruct (list_new_then_append_all fuel w allocator0 a vs Ha Hal Hre Hs Hfit Hf)
    as (list0 & w0 & list' & w' & b' & a' & rs & Hnew & Hrun & Hb' & Hh' & Hle' & _ & _
        & _ & _ & _ & Hcalls' & Hall & Hcap' & Hgrew & Hsame_l & _).
  pose proof Hh' as [Hlen' _]. fold N in Hlen'.
  exists list0, w0, list', w', rs.
  split; [exact Hnew|]. split; [exact Hrun|]. split; [exact Hcalls'|].
  split; [exact Hall|].
  split; [unfold list_cap; now rewrite Hb', Hcap'|].
  split; [rewrite <- Hcap'; lia|].
  split; [intros Hne; rewrite <- Hcap'; now apply Hgrew|].
  intros Hsmall.
  assert (Hnil : rs = []).
  { destruct rs as [|r rs]; [reflexivity|exfalso].
    assert (Hne : r :: rs <> []) by discriminate.
    specialize (Hgrew Hne). rewrite Hcap' in Hgrew.
    simpl List.length in Hgrew. rewrite Nat2Z.inj_succ, Z.pow_succ_r in Hgrew by lia.
    assert (0 < 2 ^ Z.of_nat (List.length rs)) by (apply Z.pow_pos_nonneg; lia).
    unfold DEFAULT_LIST_CAPACITY in *. nia. }
  split; [exact Hnil | exact (Hsame_l Hnil)].
Qed.

End WholeLife.

(** ** Resize *)

Section Resize.

Context {T Ctx : Type}.
Variable sizeof_T : Z.

Implicit Types (w : World T Ctx) (b : Block T) (vs : Datatypes.list T).

(** [list_ensure_capacity] for the list's own element size, on a
    well-formed list with an allocator that does not fail. *)
Lemma ensure_capacity_succeeds fuel w list b a item_count (k0 : nat) :
  let h := blk_prelude b in
  load_prelude w (list_prelude list) = Some b ->
  0 < sizeof_T -> 1 <= capacity h -> 0 <= length h <= capacity h ->
  blk_size b = sizeof_ListPrelude + capacity h * sizeof_T ->
  0 <= item_count ->
  length h + item_count <= capacity h * 2 ^ Z.of_nat k0 ->
  sizeof_ListPrelude + capacity h * 2 ^ Z.of_nat k0 * sizeof_T < size_modulus ->
  allocators w !! allocator h = Some a ->
  (forall p size c, (realloc a p size c).1 <> NULL) ->
  (64 <= fuel)%nat ->
  exists list' w' b',
    list_ensure_capacity sizeof_T fuel w list item_count sizeof_T = Done (list', w') /\
    load_prelude w' (list_prelude list') = Some b' /\
    length (blk_prelude b') = length h /\
    length h + item_count <= capacity (blk_prelude b') /\
    blk_size b' = sizeof_ListPrelude + capacity (blk_prelude b') * sizeof_T /\
    blk_size b' < size_modulus /\
    allocator (blk_prelude b') = allocator h /\
    (forall i, 0 <= i < capacity h -> blk_slots b' !! i = blk_slots b !! i) /\
    (length h + item_count <= capacity h -> list' = list /\ w' = w).
Proof.
  intros h Hb Hs Hc Hlen Hsize Hd Hk Hfit Ha Hre Hf.
  assert (H2 : 0 < 2 ^ Z.of_nat k0) by (apply Z.pow_pos_nonneg; lia).
  assert (Hm : capacity h * 2 ^ Z.of_nat k0 < size_modulus)
    by (unfold sizeof_ListPrelude in Hfit; nia).
  assert (Hw : wrap (length h + item_count) = length h + item_count)
    by (apply wrap_small; lia).
  destruct (Z.le_gt_cases (length h + item_count) (capacity h)) as [Hle|Hgt].
  - exists list, w, b.
    split; [eapply ensure_capacity_keep; [exact Hb | fold h; lia]|].
    split; [exact Hb|]. fold h.
    split; [reflexivity|]. split; [exact Hle|]. split; [exact Hsize|].
    split; [rewrite Hsize; unfold sizeof_ListPrelude in *; nia|].
    split; [reflexivity|]. split; [reflexivity|]. auto.
  - destruct (grow_loop_doubles (capacity h) (length h + item_count) k0 fuel)
      as (j & Hg & Hjk & Hdj & Hmin); try assumption.
    set (nc := capacity h * 2 ^ Z.of_nat j) in *.
    assert (Hnc : nc <= capacity h * 2 ^ Z.of_nat k0) by (apply Hmin; assumption).
    set (new_size := wrap (sizeof_ListPrelude + wrap (nc * sizeof_T))).
    assert (Hns : new_size = sizeof_ListPrelude + nc * sizeof_T).
    { unfold new_size, sizeof_ListPrelude in *.
      rewrite (wrap_small (nc * sizeof_T)) by nia. apply wrap_small. nia. }
    destruct (realloc a (list_prelude list) new_size (context a)) as [q c'] eqn:Hr.
    pose proof (Hre (list_prelude list) new_size (context a)) as Hq.
    rewrite Hr in Hq. simpl in Hq.
    destruct (ensure_capacity_grow sizeof_T fuel w list b item_count sizeof_T nc a q c')
      as (w' & Hrun & Hload & _); try assumption.
    + fold h. lia.
    + fold h. rewrite Hw. exact Hg.
    + fold new_size. rewrite Hns. unfold sizeof_ListPrelude. nia.
    + fold new_size in Hload.
      exists (prelude_end q), w', (grown sizeof_T b new_size nc).
      split; [exact Hrun|].
      split; [now rewrite list_prelude_prelude_end|]. simpl. fold h.
      split; [reflexivity|]. split; [exact Hdj|]. split; [exact Hns|].
      split; [rewrite Hns; unfold sizeof_ListPrelude in *; nia|].
      split; [reflexivity|].
      split; [|intros Hle; lia].
      intros i Hi. apply (resized_lookup sizeof_T b new_size i).
      apply slot_fits_iff. rewrite Hns. unfold sizeof_ListPrelude. nia.
Qed.

(** A store by index into a slot of the block, and what reads back. *)
Lemma write_slot_read w list b i v :
  load_prelude w (list_prelude list) = Some b ->
  slot_fits sizeof_T (blk_size b) i = true ->
  exists w',
    write_slot sizeof_T w list i v = Some w' /\
    load_prelude w' (list_prelude list) = Some (set_slots b (<[i := v]> (blk_slots b))) /\
    read_slot sizeof_T w' list i = Some v /\
    (forall j, j <> i -> read_slot sizeof_T w' list j = read_slot sizeof_T w list j) /\
    list_len w' list = list_len w list /\ list_cap w' list = list_cap w list /\
    calls w' = calls w /\ allocators w' = allocators w /\
    dom (heap w') = dom (heap w).
Proof.
  intros Hb Hfit. pose proof Hb as Hb0.
  apply load_prelude_Some in Hb0 as (Hp & Hhp & Hsz).
  unfold write_slot. rewrite Hb, Hfit. eexists. split; [reflexivity|].
  assert (Hb' : load_prelude
            (set_heap w (<[list_prelude list := set_slots b (<[i := v]> (blk_slots b))]> (heap w)))
            (list_prelude list) = Some (set_slots b (<[i := v]> (blk_slots b))))
    by (apply load_prelude_insert; assumption).
  split; [exact Hb'|].
  unfold read_slot, list_len, list_cap. rewrite Hb', Hb. simpl. rewrite Hfit.
  split; [apply lookup_insert_eq|].
  split; [intros j Hj; destruct (slot_fits _ _ j); [now apply lookup_insert_ne | reflexivity]|].
  split; [reflexivity|]. split; [reflexivity|]. split; [reflexivity|].
  split; [reflexivity|]. apply dom_insert_lookup_L. eauto.
Qed.

(** X6: [list_resize(list, k)] and then stores by index, as example.c
    fills the list.  On a list with length [n], capacity at least 1 and an
    allocator that does not fail, the call completes, the length is
    [n + k], the capacity covers it, the [n] elements there were read as
    before, and every index below [n + k], the [k] new ones included, can
    be stored to and reads back what was stored, the other slots and the
    length being left alone. *)
Theorem resize_then_store_by_index
    (fuel : nat) w (list desired : Z) b (a : Allocator Ctx) (k0 : nat) :
  let h := blk_prelude b in
  let n := length h in
  load_prelude w (list_prelude list) = Some b ->
  0 < sizeof_T -> 1 <= capacity h -> 0 <= n <= capacity h ->
  blk_size b = sizeof_ListPrelude + capacity h * sizeof_T ->
  0 <= desired ->
  n + desired <= capacity h * 2 ^ Z.of_nat k0 ->
  sizeof_ListPrelude + capacity h * 2 ^ Z.of_nat k0 * sizeof_T < size_modulus ->
  allocators w !! allocator h = Some a ->
  (forall p size c, (realloc a p size c).1 <> NULL) ->
  (64 <= fuel)%nat ->
  exists list' p w' c,
    list_resize sizeof_T fuel w list desired = Done (list', p, w') /\
    list_len w' list' = Some (n + desired) /\
    list_cap w' list' = Some c /\ n + desired <= c /\
    (forall i, 0 <= i < n -> read_slot sizeof_T w' list' i = read_slot sizeof_T w list i) /\
    (forall i v, 0 <= i < n + desired ->
       exists w'',
         write_slot sizeof_T w' list' i v = Some w'' /\
         read_slot sizeof_T w'' list' i = Some v /\
         list_len w'' list' = Some (n + desired) /\
         (forall j, j <> i -> read_slot sizeof_T w'' list' j = read_slot sizeof_T w' list' j)).
Proof.
  intros h n Hb Hs Hc Hlen Hsize Hd Hk Hfit Ha Hre Hf.
  destruct (ensure_capacity_succeeds fuel w list b a desired k0)
    as (list' & w1 & b1 & Hrun & Hb1 & Hlen1 & Hroom & Hsize1 & Hlim1 & _ & Hold & _);
    try assumption.
  fold h n in Hlen1, Hroom, Hold.
  assert (H2 : 0 < 2 ^ Z.of_nat k0) by (apply Z.pow_pos_nonneg; lia).
  assert (Hw : wrap (n + desired) = n + desired).
  { apply wrap_small. unfold sizeof_ListPrelude in Hfit. nia. }
  pose proof Hb1 as Hb1'. apply load_prelude_Some in Hb1' as (Hp1 & _ & Hsz1).
  set (b2 := set_prelude b1 {| capacity := capacity (blk_prelude b1); length := n + desired;
                                allocator := allocator (blk_prelude b1) |}).
  set (w2 := set_heap w1 (<[list_prelude list' := b2]> (heap w1))).
  assert (Hb2 : load_prelude w2 (list_prelude list') = Some b2)
    by (apply load_prelude_insert; assumption).
  exists list', (slot_addr sizeof_T list' (n + desired)), w2, (capacity (blk_prelude b1)).
  split.
  { unfold list_resize. rewrite Hrun, Hb1, Hlen1, Hw.
    now rewrite (store_length_Some w1 _ b1 _ Hb1). }
  split; [unfold list_len; now rewrite Hb2|].
  split; [unfold list_cap; now rewrite Hb2|].
  split; [exact Hroom|].
  split.
  { intros i Hi.
    rewrite (read_slot_at sizeof_T w2 list' b2) by (assumption || (simpl; lia)).
    rewrite (read_slot_at sizeof_T w list b) by (assumption || (fold h n; lia)).
    simpl. apply Hold. lia. }
  intros i v Hi.
  destruct (write_slot_read w2 list' b2 i v Hb2) as (w3 & Hwr & _ & Hrd & Hoth & Hl3 & _).
  { apply slot_fits_iff. simpl. rewrite Hsize1. unfold sizeof_ListPrelude. nia. }
  exists w3. split; [exact Hwr|]. split; [exact Hrd|].
  split; [rewrite Hl3; unfold list_len; now rewrite Hb2 | exact Hoth].
Qed.

(** X7: [list_resize] adds in [size_t] and checks nothing: a count of
    [2^64 - j], for [j] from 1 to the length, is taken for a demand that
    the capacity already covers, so the call reallocates nothing, keeps the
    handle and lowers the length by [j]. *)
Theorem resize_wraps_length (fuel : nat) w (list j : Z) b :
  let h := blk_prelude b in
  load_prelude w (list_prelude list) = Some b ->
  0 <= length h <= capacity h -> length h < size_modulus ->
  1 <= j <= length h ->
  exists w',
    list_resize sizeof_T fuel w list (size_modulus - j)
      = Done (list, slot_addr sizeof_T list (length h - j), w') /\
    list_len w' list = Some (length h - j) /\
    list_cap w' list = Some (capacity h) /\
    calls w' = calls w.
Proof.
  intros h Hb Hlen Hlim Hj.
  assert (Hw : wrap (length h + (size_modulus - j)) = length h - j).
  { unfold wrap.
    replace (length h + (size_modulus - j)) with (length h - j + 1 * size_modulus) by lia.
    rewrite Z.mod_add by discriminate. apply Z.mod_small. lia. }
  pose proof Hb as Hb'. apply load_prelude_Some in Hb' as (Hp & _ & Hsz).
  set (b1 := set_prelude b {| capacity := capacity h; length := length h - j;
                              allocator := allocator h |}).
  assert (Hb1 : load_prelude (set_heap w (<[list_prelude list := b1]> (heap w)))
                  (list_prelude list) = Some b1)
    by (apply load_prelude_insert; assumption).
  exists (set_heap w (<[list_prelude list := b1]> (heap w))).
  split.
  { unfold list_resize.
    rewrite (ensure_capacity_keep sizeof_T fuel w list b _ _ Hb) by (fold h; lia).
    rewrite Hb. fold h. rewrite Hw.
    now rewrite (store_length_Some w _ b _ Hb). }
  split; [unfold list_len; now rewrite Hb1|].
  split; [unfold list_cap; now rewrite Hb1 | reflexivity].
Qed.

End Resize.

(** ** Swap-remove *)

Lemma swap_removed_snoc {A : Type} (l : Datatypes.list A) (y : A) (i : nat) :
  swap_removed (l ++ [y]) i =
  if (i =? List.length l)%nat then l else <[i := y]> l.
Proof.
  unfold swap_removed. rewrite last_snoc, removelast_last, length_app. simpl.
  replace (List.length l + 1 - 1)%nat with (List.length l) by lia. reflexivity.
Qed.

(** What a swap-remove leaves is, up to order, the list without its
    element at [i]. *)
Lemma swap_removed_Permutation {A : Type} (vs : Datatypes.list A) (i : nat) :
  (i < List.length vs)%nat -> swap_removed vs i ≡ₚ delete i vs.
Proof.
  intros Hi. destruct (decide (vs = [])) as [->|Hne]; [simpl in Hi; lia|].
  destruct (exists_last Hne) as (l & y & ->).
  rewrite swap_removed_snoc. rewrite length_app in Hi. simpl in Hi.
  destruct (Nat.eqb_spec i (List.length l)) as [->|Hne'].
  - rewrite delete_take_drop, take_app_length, drop_ge by (rewrite length_app; simpl; lia).
    now rewrite app_nil_r.
  - assert (Hlt : (i < List.length l)%nat) by lia.
    rewrite insert_take_drop by exact Hlt.
    rewrite delete_take_drop, take_app_le, drop_app_le by lia.
    apply Permutation_app_head.
    rewrite <- Permutation_cons_append. reflexivity.
Qed.

Section Remove.

Context {T Ctx : Type}.
Variable sizeof_T : Z.

Implicit Types (w : World T Ctx) (b : Block T) (vs : Datatypes.list T).

(** The branch of [list_remove_at] for the last index: one store. *)
Lemma list_remove_at_last w list b :
  let n := length (blk_prelude b) in
  load_prelude w (list_prelude list) = Some b ->
  exists w',
    list_remove_at sizeof_T w list (wrap (n - 1)) = Done w' /\
    load_prelude w' (list_prelude list) = Some
      (set_prelude b {| capacity := capacity (blk_prelude b); length := wrap (n - 1);
                        allocator := allocator (blk_prelude b) |}) /\
    calls w' = calls w /\ allocators w' = allocators w.
Proof.
  intros n Hb. pose proof Hb as Hb'. apply load_prelude_Some in Hb' as (Hp & _ & Hsz).
  unfold list_remove_at. rewrite Hb. fold n. rewrite Z.eqb_refl.
  rewrite (store_length_Some w _ b _ Hb). eexists. split; [reflexivity|].
  split; [apply load_prelude_insert; assumption | split; reflexivity].
Qed.

(** The branch of [list_remove_at] that copies: the length is stored, then
    the bytes of the last slot go to slot [index]. *)
Lemma list_remove_at_copy w list index b :
  let n := length (blk_prelude b) in
  load_prelude w (list_prelude list) = Some b ->
  1 < n -> n < size_modulus -> index <> n - 1 ->
  slot_fits sizeof_T (blk_size b) index = true ->
  slot_fits sizeof_T (blk_size b) (n - 1) = true ->
  exists w',
    list_remove_at sizeof_T w list index = Done w' /\
    load_prelude w' (list_prelude list) = Some
      {| blk_size := blk_size b;
         blk_prelude := {| capacity := capacity (blk_prelude b); length := n - 1;
                           allocator := allocator (blk_prelude b) |};
         blk_slots := match blk_slots b !! (n - 1) with
                      | Some v => <[index := v]> (blk_slots b)
                      | None => delete index (blk_slots b)
                      end |} /\
    calls w' = calls w /\ allocators w' = allocators w.
Proof.
  intros n Hb Hn Hlim Hne Hfi Hfl.
  pose proof Hb as Hb'. apply load_prelude_Some in Hb' as (Hp & _ & Hsz).
  assert (Hw : wrap (n - 1) = n - 1) by (apply wrap_small; lia).
  unfold list_remove_at. rewrite Hb. fold n. rewrite Hw.
  destruct (Z.eqb_spec index (n - 1)); [contradiction|].
  destruct (Z.ltb_spec 1 n); [|lia].
  rewrite (store_length_Some w _ b _ Hb).
  rewrite load_prelude_insert by assumption.
  unfold memcpy_slot. simpl blk_size. rewrite Hfi, Hfl. simpl.
  eexists. split; [reflexivity|].
  split; [apply load_prelude_insert; assumption | split; reflexivity].
Qed.

(** X8: swap-remove on the contents.  On a list holding the values [vs],
    [list_remove_at] at an index below the length leaves the list holding
    [swap_removed vs index], one element shorter, which is a permutation of
    [vs] without its element at that index: the element named is the only
    one lost, whatever the order. *)
Theorem remove_at_keeps_the_others w (list index : Z) b vs :
  let h := blk_prelude b in
  load_prelude w (list_prelude list) = Some b ->
  holds b vs ->
  0 < sizeof_T -> length h <= capacity h ->
  sizeof_ListPrelude + capacity h * sizeof_T <= blk_size b ->
  length h < size_modulus ->
  0 <= index < length h ->
  exists w' b',
    list_remove_at sizeof_T w list index = Done w' /\
    load_prelude w' (list_prelude list) = Some b' /\
    holds b' (swap_removed vs (Z.to_nat index)) /\
    swap_removed vs (Z.to_nat index) ≡ₚ delete (Z.to_nat index) vs /\
    List.length (swap_removed vs (Z.to_nat index)) = (List.length vs - 1)%nat.
Proof.
  intros h Hb Hh Hs Hle Hsize Hlim Hi.
  pose proof Hh as [Hlen Hvs]. fold h in Hlen.
  assert (Hperm : swap_removed vs (Z.to_nat index) ≡ₚ delete (Z.to_nat index) vs)
    by (apply swap_removed_Permutation; lia).
  assert (Hcount : List.length (swap_removed vs (Z.to_nat index)) = (List.length vs - 1)%nat).
  { rewrite Hperm. rewrite length_delete; [reflexivity|].
    apply lookup_lt_is_Some. lia. }
  destruct (decide (vs = [])) as [->|Hne]; [simpl in Hlen; lia|].
  destruct (exists_last Hne) as (l & y & ->).
  rewrite length_app in Hlen. simpl in Hlen.
  rewrite swap_removed_snoc in *.
  assert (Hy : blk_slots b !! (length h - 1) = Some y).
  { replace (length h - 1) with (Z.of_nat (List.length l)) by lia.
    apply Hvs. apply list_lookup_middle. reflexivity. }
  destruct (Nat.eqb_spec (Z.to_nat index) (List.length l)) as [Heq|Hneq].
  - destruct (list_remove_at_last w list b Hb) as (w' & Hrun & Hb' & _).
    fold h in Hrun, Hb'. rewrite wrap_small in Hrun, Hb' by lia.
    replace (length h - 1) with index in Hrun by lia.
    eexists w', _. split; [exact Hrun|]. split; [exact Hb'|].
    split; [|split; assumption].
    split; [simpl; lia|].
    intros k v Hk. simpl. apply Hvs. now apply lookup_app_l_Some.
  - destruct (list_remove_at_copy w list index b Hb) as (w' & Hrun & Hb' & _).
    + fold h. lia.
    + exact Hlim.
    + fold h. lia.
    + apply slot_fits_iff. unfold sizeof_ListPrelude in *. nia.
    + apply slot_fits_iff. fold h. unfold sizeof_ListPrelude in *. nia.
    + fold h in Hb'. rewrite Hy in Hb'.
      eexists w', _. split; [exact Hrun|]. split; [exact Hb'|].
      split; [|split; assumption].
      split; [simpl; rewrite length_insert; lia|].
      intros k v Hk. simpl.
      destruct (decide (k = Z.to_nat index)) as [->|Hki].
      * rewrite list_lookup_insert_eq in Hk by lia. injection Hk as <-.
        rewrite Z2Nat.id by lia. apply lookup_insert_eq.
      * rewrite list_lookup_insert_ne in Hk by congruence.
        rewrite lookup_insert_ne by lia.
        apply Hvs. now apply lookup_app_l_Some.
Qed.

(** X9: [list_remove_at] does not check its index.  With an index at or
    past the length of a well-formed list: on an empty list the index
    [2^64 - 1] makes the length [2^64 - 1]; on a list of at most one element
    any other such index does nothing at all; on a longer list an index
    within the capacity drops the last element all the same (the length is
    lowered and the live elements that remain read as before), and an index
    past the capacity is undefined behaviour. *)
Theorem remove_at_out_of_range w (list index : Z) b :
  let h := blk_prelude b in
  let n := length h in
  load_prelude w (list_prelude list) = Some b ->
  0 < sizeof_T -> 0 <= n <= capacity h ->
  blk_size b = sizeof_ListPrelude + capacity h * sizeof_T ->
  n < size_modulus ->
  n <= index < size_modulus ->
  (n = 0 -> index = size_modulus - 1 ->
     exists w', list_remove_at sizeof_T w list index = Done w' /\
       list_len w' list = Some (size_modulus - 1)) /\
  (n <= 1 -> index <> size_modulus - 1 ->
     list_remove_at sizeof_T w list index = Done w) /\
  (1 < n -> index < capacity h ->
     exists w', list_remove_at sizeof_T w list index = Done w' /\
       list_len w' list = Some (n - 1) /\
       forall i, 0 <= i < n - 1 ->
         read_slot sizeof_T w' list i = read_slot sizeof_T w list i) /\
  (1 < n -> capacity h <= index ->
     list_remove_at sizeof_T w list index = Undefined).
Proof.
  intros h n Hb Hs Hn Hsize Hlim Hi.
  pose proof Hb as Hb0. apply load_prelude_Some in Hb0 as (Hp & _ & Hsz).
  split; [|split; [|split]].
  - intros H0 Hmax.
    destruct (list_remove_at_last w list b Hb) as (w' & Hrun & Hb' & _).
    fold h n in Hrun, Hb'. rewrite H0 in Hrun, Hb'.
    change (wrap (0 - 1)) with (size_modulus - 1) in Hrun, Hb'.
    rewrite <- Hmax in Hrun. exists w'. split; [exact Hrun|].
    unfold list_len. now rewrite Hb'.
  - intros H1 Hmax. unfold list_remove_at. rewrite Hb. fold h n.
    assert (Hne : index <> wrap (n - 1)).
    { destruct (Z.eq_dec n 0) as [->|]; [exact Hmax|].
      rewrite wrap_small by lia. lia. }
    destruct (Z.eqb_spec index (wrap (n - 1))); [contradiction|].
    destruct (Z.ltb_spec 1 n); [lia | reflexivity].
  - intros H1 Hc.
    destruct (list_remove_at_copy w list index b Hb) as (w' & Hrun & Hb' & _).
    + fold h n. exact H1.
    + exact Hlim.
    + fold h n. lia.
    + apply slot_fits_iff. rewrite Hsize. unfold sizeof_ListPrelude. nia.
    + apply slot_fits_iff. fold h n. rewrite Hsize. unfold sizeof_ListPrelude. nia.
    + fold h n in Hb'. exists w'. split; [exact Hrun|].
      split; [unfold list_len; now rewrite Hb'|].
      intros i Hi'. unfold read_slot. rewrite Hb', Hb. simpl.
      destruct (slot_fits sizeof_T (blk_size b) i); [|reflexivity].
      destruct (blk_slots b !! (n - 1)).
      * apply lookup_insert_ne. lia.
      * apply lookup_delete_ne. lia.
  - intros H1 Hc. unfold list_remove_at. rewrite Hb. fold h n.
    rewrite wrap_small by lia.
    destruct (Z.eqb_spec index (n - 1)); [lia|].
    destruct (Z.ltb_spec 1 n); [|lia].
    rewrite (store_length_Some w _ b _ Hb).
    rewrite load_prelude_insert by assumption.
    unfold memcpy_slot. simpl blk_size.
    replace (slot_fits sizeof_T (blk_size b) index) with false; [reflexivity|].
    symmetry. apply not_true_is_false. rewrite slot_fits_iff, Hsize.
    unfold sizeof_ListPrelude. nia.
Qed.

End Remove.

(** ** Sizes that the code takes on trust *)

Section Sizes.

Context {T Ctx : Type}.
Variable sizeof_T : Z.
Variable default_allocator : Z.

Implicit Types (w : World T Ctx) (b : Block T) (vs : Datatypes.list T).

(** X10: [list_append] sizes the growth by [sizeof(item)], not by the
    element size of the list.  On a full list, when the item expression is
    of a smaller type, so that [2 * capacity * sizeof(item)] bytes do not
    reach the end of slot [capacity], the reallocated block is too small
    and the store of the item goes outside it: undefined behaviour. *)
Theorem append_smaller_item_overruns
    (fuel : nat) w (list item_size : Z) (item : T) b (a : Allocator Ctx) :
  let h := blk_prelude b in
  load_prelude w (list_prelude list) = Some b ->
  1 <= capacity h -> length h = capacity h ->
  0 < item_size ->
  2 * capacity h * item_size < (capacity h + 1) * sizeof_T ->
  sizeof_ListPrelude + (capacity h + 1) * sizeof_T < size_modulus ->
  allocators w !! allocator h = Some a ->
  (forall p size c, (realloc a p size c).1 <> NULL) ->
  (1 <= fuel)%nat ->
  list_append sizeof_T fuel w list item_size item = Undefined.
Proof.
  intros h Hb Hc Hfull Hi Hsmall Hfit Ha Hre Hf.
  assert (Hs : 0 < sizeof_T) by nia.
  assert (Hcm : capacity h + 1 < size_modulus) by (unfold sizeof_ListPrelude in *; nia).
  assert (Hc2 : 2 * capacity h < size_modulus) by (unfold sizeof_ListPrelude in *; nia).
  set (nc := 2 * capacity h).
  set (new_size := wrap (sizeof_ListPrelude + wrap (nc * item_size))).
  assert (Hns : new_size = sizeof_ListPrelude + nc * item_size).
  { unfold new_size, nc, sizeof_ListPrelude in *.
    rewrite (wrap_small (2 * capacity h * item_size)) by nia. apply wrap_small. nia. }
  assert (Hw : wrap (length h + 1) = length h + 1) by (apply wrap_small; lia).
  assert (Hg : grow_loop fuel (wrap (capacity h * 2)) (wrap (length h + 1)) = Some nc).
  { rewrite Hw, wrap_small by lia.
    destruct fuel as [|fuel]; [lia|]. simpl.
    destruct (Z.ltb_spec (capacity h * 2) (length h + 1)); [lia|].
    unfold nc. f_equal. lia. }
  destruct (realloc a (list_prelude list) new_size (context a)) as [q c'] eqn:Hr.
  pose proof (Hre (list_prelude list) new_size (context a)) as Hq.
  rewrite Hr in Hq. simpl in Hq.
  destruct (ensure_capacity_grow sizeof_T fuel w list b 1 item_size nc a q c')
    as (w1 & Hrun1 & Hload1 & _); try assumption.
  { fold h. lia. }
  { fold new_size. rewrite Hns. unfold sizeof_ListPrelude, nc. nia. }
  fold new_size in Hload1.
  unfold list_append. rewrite Hrun1, list_prelude_prelude_end, Hload1.
  unfold write_slot. rewrite list_prelude_prelude_end, Hload1. simpl. fold h.
  replace (slot_fits sizeof_T new_size (length h)) with false; [reflexivity|].
  symmetry. apply not_true_is_false. rewrite slot_fits_iff, Hns.
  unfold sizeof_ListPrelude, nc. nia.
Qed.

(** X11: [create_list] multiplies and adds in [size_t] and checks nothing.
    When [sizeof(ListPrelude) + stride * capacity] is 2^64 or more, a call
    that returns a list has asked for fewer bytes than that; the list has
    length 0 and records the capacity asked for, but the last slot that
    this capacity promises is outside the block: it cannot be read, and a
    store to it is undefined behaviour. *)
Theorem create_list_overflow_underallocates w (capacity0 allocator0 l : Z) w' :
  0 < sizeof_T -> 0 < capacity0 ->
  size_modulus <= sizeof_ListPrelude + sizeof_T * capacity0 ->
  create_list default_allocator w sizeof_T capacity0 allocator0 = Done (l, w') ->
  l <> NULL ->
  list_len w' l = Some 0 /\
  list_cap w' l = Some capacity0 /\
  read_slot sizeof_T w' l (capacity0 - 1) = None /\
  (forall v : T, write_slot sizeof_T w' l (capacity0 - 1) v = None).
Proof.
  intros Hs Hc Hover H Hl.
  apply create_list_Done in H; [|exact Hl].
  set (size := wrap (sizeof_ListPrelude + wrap (sizeof_T * capacity0))) in *.
  assert (Hsize : size < size_modulus) by apply wrap_range.
  assert (Hout : slot_fits sizeof_T size (capacity0 - 1) = false).
  { apply not_true_is_false. rewrite slot_fits_iff. unfold sizeof_ListPrelude in *. nia. }
  unfold list_len, list_cap, read_slot, write_slot. rewrite H. simpl. rewrite Hout.
  repeat split.
Qed.

End Sizes.

(** ** The run of example.c *)

Section MainRun.

Context {Ctx : Type}.
Variable default_allocator : Z.

Implicit Types (w : World Z Ctx) (b : Block Z) (vs : Datatypes.list Z).

Lemma print_loop_items w list vs : forall i,
  (forall (k : nat) v, vs !! k = Some v ->
     read_slot sizeof_int w list (i + Z.of_nat k) = Some v) ->
  print_loop w list i (List.length vs) = Done (items_from i vs).
Proof.
  induction vs as [|v vs IH]; intros i Hread; [reflexivity|].
  simpl. pose proof (Hread 0%nat v eq_refl) as H0. rewrite Z.add_0_r in H0.
  rewrite H0, IH; [reflexivity|].
  intros k x Hk. replace (i + 1 + Z.of_nat k) with (i + Z.of_nat (S k)) by lia.
  now apply Hread.
Qed.

(** The print loop on a list that holds [vs] prints [vs], in order, each
    value with its index. *)
Lemma print_items_holds w list b vs :
  load_prelude w (list_prelude list) = Some b ->
  holds b vs ->
  length (blk_prelude b) <= capacity (blk_prelude b) ->
  blk_size b = sizeof_ListPrelude + capacity (blk_prelude b) * sizeof_int ->
  print_items w list = Done (items_from 0 vs).
Proof.
  intros Hb Hh Hle Hsize. unfold print_items, list_len. rewrite Hb.
  pose proof Hh as [Hlen _]. rewrite Hlen, Nat2Z.id.
  apply print_loop_items. intros k v Hk. rewrite Z.add_0_l.
  eapply holds_read; try eassumption. reflexivity.
Qed.

(** The fill loop stores [vs] into the slots from [i] on and touches
    nothing else. *)
Lemma fill_loop_stores vs : forall w list b i,
  load_prelude w (list_prelude list) = Some b ->
  0 <= i ->
  i + Z.of_nat (List.length vs) <= capacity (blk_prelude b) ->
  blk_size b = sizeof_ListPrelude + capacity (blk_prelude b) * sizeof_int ->
  exists w' b',
    fill_loop w list i vs = Done w' /\
    load_prelude w' (list_prelude list) = Some b' /\
    blk_prelude b' = blk_prelude b /\ blk_size b' = blk_size b /\
    (forall (k : nat) v, vs !! k = Some v -> blk_slots b' !! (i + Z.of_nat k) = Some v) /\
    (forall j, j < i -> blk_slots b' !! j = blk_slots b !! j) /\
    calls w' = calls w /\ allocators w' = allocators w /\
    dom (heap w') = dom (heap w).
Proof.
  induction vs as [|v vs IH]; intros w list b i Hb Hi Hroom Hsize.
  - exists w, b. simpl. repeat split; auto.
    intros k v Hk. rewrite lookup_nil in Hk. discriminate.
  - simpl List.length in Hroom.
    destruct (write_slot_read sizeof_int w list b i v Hb)
      as (w1 & Hwr & Hb1 & _ & _ & _ & _ & Hc1 & Ha1 & Hd1).
    { apply slot_fits_iff. rewrite Hsize. unfold sizeof_ListPrelude, sizeof_int. lia. }
    destruct (IH w1 list _ (i + 1) Hb1) as (w' & b' & Hrun & Hb' & Hpre & Hsz & Hnew & Hold
      & Hc' & Ha' & Hd'); try (simpl; lia); try exact Hsize.
    simpl in Hpre, Hsz, Hold.
    exists w', b'. simpl. rewrite Hwr.
    split; [exact Hrun|]. split; [exact Hb'|]. split; [exact Hpre|]. split; [exact Hsz|].
    split.
    { intros [|k] x Hk.
      - injection Hk as <-. rewrite Z.add_0_r, Hold by lia. apply lookup_insert_eq.
      - replace (i + Z.of_nat (S k)) with (i + 1 + Z.of_nat k) by lia. now apply Hnew. }
    split; [intros j Hj; rewrite Hold by lia; apply lookup_insert_ne; lia|].
    split; [congruence|]. split; congruence.
Qed.

(** A resize that the capacity covers: the length is stored, no more. *)
Lemma list_resize_in_place (fuel : nat) w list desired b :
  let h := blk_prelude b in
  load_prelude w (list_prelude list) = Some b ->
  wrap (length h + desired) <= capacity h ->
  list_resize sizeof_int fuel w list desired
  = Done (list, slot_addr sizeof_int list (wrap (length h + desired)),
          set_heap w (<[list_prelude list :=
            set_prelude b {| capacity := capacity h; length := wrap (length h + desired);
                             allocator := allocator h |}]> (heap w))).
Proof.
  intros h Hb Hle. unfold list_resize.
  rewrite (ensure_capacity_keep sizeof_int fuel w list b _ _ Hb Hle), Hb.
  now rewrite (store_length_Some w _ b _ Hb).
Qed.

(** The number of doublings that take 16 to at least 100 and below 200. *)
Lemma three_doublings (k : nat) :
  100 <= DEFAULT_LIST_CAPACITY * 2 ^ Z.of_nat k ->
  (k <> 0%nat -> DEFAULT_LIST_CAPACITY * 2 ^ Z.of_nat k < 200) ->
  k = 3%nat.
Proof.
  unfold DEFAULT_LIST_CAPACITY. intros Hlo Hhi.
  destruct k as [|[|[|[|k]]]]; try (simpl in Hlo; lia); try reflexivity. exfalso.
  assert (2 ^ 4 <= 2 ^ Z.of_nat (S (S (S (S k))))) by (apply Z.pow_le_mono_r; lia).
  specialize (Hhi ltac:(discriminate)). change (2 ^ 4) with 16 in *. lia.
Qed.

(** X12: example.c runs to the end.  Whatever [rand] returns and whatever
    addresses an allocator that does not fail hands out: [main] returns 0;
    it prints the first hundred values of [rand] with the indices 0 to 99,
    in the order appended, and then the second hundred, stored by index
    after the clear and the resize, with the indices 0 to 99; it calls the
    default allocator five times, one alloc of 96 bytes, three reallocs and
    one free; and starting with no live block it leaves none. *)
Theorem main_runs_to_the_end (fuel : nat) w (a : Allocator Ctx) (rand : nat -> Z) :
  heap w = ∅ ->
  allocators w !! default_allocator = Some a ->
  (forall size c, (alloc a size c).1 <> NULL) ->
  (forall p size c, (realloc a p size c).1 <> NULL) ->
  (64 <= fuel)%nat ->
  exists w' p q rs,
    main default_allocator fuel w rand
      = Done (0, items_from 0 (map rand (seq 0 100)) ++ items_from 0 (map rand (seq 100 100)),
              w') /\
    heap w' = ∅ /\
    calls w' = calls w ++ [CallAlloc default_allocator 96 p] ++ rs
                 ++ [CallFree default_allocator q] /\
    List.length rs = 3%nat /\ Forall (realloc_of default_allocator) rs.
Proof.
  intros Hempty Ha Hal Hre Hf.
  set (vs1 := map rand (seq 0 100)). set (vs2 := map rand (seq 100 100)).
  assert (Hn1 : List.length vs1 = 100%nat) by (unfold vs1; now rewrite length_map, length_seq).
  assert (Hn2 : List.length vs2 = 100%nat) by (unfold vs2; now rewrite length_map, length_seq).
  destruct (list_new_then_append_all sizeof_int default_allocator fuel w NULL a vs1)
    as (l0 & w1 & l & w2 & b2 & a2 & rs & Hnew & Hrun & Hb2 & Hh2 & Hle2 & Hsize2 & Halloc2
        & Ha2 & _ & Hcalls1 & Hcalls2 & Hall & Hcap2 & Hgrew & _ & Hdom2); try assumption.
  { reflexivity. }
  { rewrite Hn1. reflexivity. }
  change (if NULL =? NULL then default_allocator else NULL) with default_allocator in *.
  rewrite Hn1 in Hgrew. change (2 * Z.of_nat 100) with 200 in Hgrew.
  pose proof Hh2 as [Hlen2 _]. rewrite Hn1 in Hlen2. change (Z.of_nat 100) with 100 in Hlen2.
  assert (Hk : List.length rs = 3%nat).
  { apply three_doublings.
    - rewrite <- Hcap2. lia.
    - intros Hne. rewrite <- Hcap2. apply Hgrew. intros ->. now apply Hne. }
  rewrite Hk in Hcap2. change (DEFAULT_LIST_CAPACITY * 2 ^ Z.of_nat 3) with 128 in Hcap2.
  pose proof Hb2 as Hb2'. apply load_prelude_Some in Hb2' as (Hp2 & Hhp2 & Hsz2).
  (* the first print loop *)
  assert (Hout1 : print_items w2 l = Done (items_from 0 vs1))
    by (eapply print_items_holds; eassumption).
  (* list_clear *)
  set (b3 := set_prelude b2 {| capacity := capacity (blk_prelude b2); length := 0;
                               allocator := allocator (blk_prelude b2) |}).
  set (w3 := set_heap w2 (<[list_prelude l := b3]> (heap w2))).
  assert (Hclear : list_clear w2 l = Done w3).
  { unfold list_clear. now rewrite (store_length_Some w2 _ b2 0 Hb2). }
  assert (Hb3 : load_prelude w3 (list_prelude l) = Some b3)
    by (apply load_prelude_insert; assumption).
  (* list_resize(list, 100) *)
  pose proof (list_resize_in_place fuel w3 l 100 b3 Hb3) as Hresize.
  simpl in Hresize. rewrite Hcap2 in Hresize. change (wrap (0 + 100)) with 100 in Hresize.
  specialize (Hresize ltac:(lia)).
  set (b4 := set_prelude b3 {| capacity := 128; length := 100;
                               allocator := allocator (blk_prelude b2) |}) in Hresize.
  set (w4 := set_heap w3 (<[list_prelude l := b4]> (heap w3))) in Hresize.
  assert (Hb4 : load_prelude w4 (list_prelude l) = Some b4)
    by (apply load_prelude_insert; assumption).
  (* the fill loop *)
  destruct (fill_loop_stores vs2 w4 l b4 0 Hb4) as (w5 & b5 & Hfill & Hb5 & Hpre5 & Hsz5
    & Hnew5 & _ & Hcalls5 & Hal5 & Hdom5).
  { lia. }
  { rewrite Hn2. simpl. lia. }
  { simpl. rewrite Hsize2, Hcap2. reflexivity. }
  simpl in Hpre5, Hsz5.
  (* the second print loop *)
  assert (Hout2 : print_items w5 l = Done (items_from 0 vs2)).
  { eapply print_items_holds; [exact Hb5| | |].
    - split; [rewrite Hpre5, Hn2; reflexivity|].
      intros i v Hi. specialize (Hnew5 i v Hi). now rewrite Z.add_0_l in Hnew5.
    - rewrite Hpre5. simpl. lia.
    - rewrite Hsz5, Hpre5, Hsize2, Hcap2. reflexivity. }
  (* list_free *)
  destruct (list_free_Done w5 l b5 a2 Hb5) as (w6 & Hfree & Hheap6 & Hcalls6 & _).
  { rewrite Hpre5, Hal5. simpl. rewrite Halloc2. exact Ha2. }
  rewrite Hpre5 in Hcalls6. simpl in Hcalls6. rewrite Halloc2 in Hcalls6.
  exists w6, (list_prelude l0), (list_prelude l), rs.
  split.
  { unfold main. fold vs1 vs2.
    change (list_new sizeof_int default_allocator w)
      with (list_new_alloc sizeof_int default_allocator w NULL).
    rewrite Hnew, Hrun, Hout1, Hclear, Hresize. cbv beta iota.
    change (fill_loop _ l 0 vs2) with (fill_loop w4 l 0 vs2).
    rewrite Hfill, Hout2, Hfree. reflexivity. }
  split.
  { apply dom_empty_iff_L. rewrite Hheap6, dom_delete_L, Hdom5. simpl.
    rewrite dom_insert_lookup_L by (rewrite lookup_insert_eq; eauto).
    rewrite dom_insert_lookup_L by eauto.
    rewrite (Hdom2 Hempty). apply difference_diag_L. }
  split; [|split; [exact Hk | exact Hall]].
  rewrite Hcalls6, Hcalls5. simpl. rewrite Hcalls2, Hcalls1.
  now rewrite <- !app_assoc.
Qed.

End MainRun.

(** ** The further theorems at work *)

Lemma slots_from_lookup (vs : Datatypes.list Z) : forall (i : Z) (k : nat) (v : Z),
  vs !! k = Some v -> slots_from i vs !! (i + Z.of_nat k) = Some v.
Proof.
  induction vs as [|x vs IH]; intros i k v Hk; [rewrite lookup_nil in Hk; discriminate|].
  destruct k as [|k]; simpl in Hk; cbn [slots_from].
  - injection Hk as <-. rewrite Z.add_0_r. apply lookup_insert_eq.
  - rewrite lookup_insert_ne by lia.
    replace (i + Z.of_nat (S k)) with (i + 1 + Z.of_nat k) by lia.
    apply IH. exact Hk.
Qed.

Lemma holds_int_list_block (cap : Z) (vs : Datatypes.list Z) :
  holds (int_list_block cap vs) vs.
Proof.
  split; [reflexivity|]. intros i v Hi. simpl.
  apply (slots_from_lookup vs 0 i v Hi).
Qed.

Lemma create_list_alloc_failure_witness :
  exists w',
    create_list 8 (int_list_world 2 [10; 20] exhausted_allocator) 4 16 NULL = Done (NULL, w') /\
    heap w' = heap (int_list_world 2 [10; 20] exhausted_allocator) /\
    calls w' = [CallAlloc 8 96 NULL].
Proof.
  apply (@create_list_alloc_failure Z positive 8
           (int_list_world 2 [10; 20] exhausted_allocator) 4 16 NULL exhausted_allocator);
    reflexivity.
Defined.

Lemma list_free_leaves_handle_unusable_witness :
  exists w',
    list_free three_ints int_list = Done w' /\
    calls w' = [CallFree 8 1024] /\
    unusable 4 w' int_list.
Proof.
  destruct (@list_free_leaves_handle_unusable Z positive 4 three_ints int_list
              (int_list_block 16 [10; 20; 30]) (bump_allocator 4096) eq_refl eq_refl)
    as (w' & Hrun & Hcalls & _ & _ & Hdead).
  exists w'. split; [exact Hrun|]. split; [exact Hcalls | exact Hdead].
Defined.

Lemma reallocation_invalidates_handle_witness :
  exists list' w',
    list_ensure_capacity 4 64 (int_list_world 2 [10; 20] (bump_allocator 4096)) int_list 1 4
      = Done (list', w') /\
    unusable 4 w' int_list /\ list_len w' list' = Some 2.
Proof.
  destruct (list_ensure_capacity 4 64 (int_list_world 2 [10; 20] (bump_allocator 4096))
              int_list 1 4) as [[list' w']| |] eqn:E;
    [|vm_compute in E; discriminate|vm_compute in E; discriminate].
  exists list', w'. split; [reflexivity|].
  destruct (@reallocation_invalidates_handle Z positive 4 64
              (int_list_world 2 [10; 20] (bump_allocator 4096)) int_list 1 4 list' w' E)
    as (_ & Hdead & _).
  { vm_compute in E. injection E as <- _. discriminate. }
  split; [exact Hdead|]. vm_compute in E. injection E as <- <-. reflexivity.
Defined.

Lemma new_append_free_round_trip_witness :
  exists list0 w0 list' w' w'' rs,
    list_new_alloc 4 8 fresh_world NULL = Done (list0, w0) /\
    append_all 4 64 w0 list0 twenty_values = Done (list', w') /\
    list_free w' list' = Done w'' /\
    heap w'' = ∅ /\
    calls w'' = [] ++ [CallAlloc 8 (sizeof_ListPrelude + 4 * DEFAULT_LIST_CAPACITY)
                         (list_prelude list0)]
                  ++ rs ++ [CallFree 8 (list_prelude list')] /\
    Forall (realloc_of 8) rs.
Proof.
  apply (@new_append_free_round_trip Z positive 4 8 64 fresh_world NULL
           (bump_allocator 4096) twenty_values).
  - reflexivity.
  - reflexivity.
  - intros size c. simpl. discriminate.
  - intros p size c. simpl. discriminate.
  - lia.
  - vm_compute. reflexivity.
  - lia.
Defined.

Lemma appends_reallocate_by_doubling_witness :
  exists list0 w0 list' w' rs,
    list_new_alloc 4 8 fresh_world NULL = Done (list0, w0) /\
    append_all 4 64 w0 list0 twenty_values = Done (list', w') /\
    calls w' = calls w0 ++ rs /\ Forall (realloc_of 8) rs /\
    list_cap w' list' = Some (DEFAULT_LIST_CAPACITY * 2 ^ Z.of_nat (List.length rs)) /\
    20 <= DEFAULT_LIST_CAPACITY * 2 ^ Z.of_nat (List.length rs) /\
    (rs <> [] -> DEFAULT_LIST_CAPACITY * 2 ^ Z.of_nat (List.length rs) < 2 * 20) /\
    (20 <= DEFAULT_LIST_CAPACITY -> rs = [] /\ list' = list0).
Proof.
  apply (@appends_reallocate_by_doubling Z positive 4 8 64 fresh_world NULL
           (bump_allocator 4096) twenty_values).
  - reflexivity.
  - intros size c. simpl. discriminate.
  - intros p size c. simpl. discriminate.
  - lia.
  - vm_compute. reflexivity.
  - lia.
Defined.

Lemma resize_then_store_by_index_witness :
  exists list' p w' c,
    list_resize 4 64 two_ints int_list 30 = Done (list', p, w') /\
    list_len w' list' = Some (2 + 30) /\
    list_cap w' list' = Some c /\ 2 + 30 <= c /\
    (forall i, 0 <= i < 2 -> read_slot 4 w' list' i = read_slot 4 two_ints int_list i) /\
    (forall i v, 0 <= i < 2 + 30 ->
       exists w'',
         write_slot 4 w' list' i v = Some w'' /\
         read_slot 4 w'' list' i = Some v /\
         list_len w'' list' = Some (2 + 30) /\
         (forall j, j <> i -> read_slot 4 w'' list' j = read_slot 4 w' list' j)).
Proof.
  apply (@resize_then_store_by_index Z positive 4 64 two_ints int_list 30
           (int_list_block 16 [10; 20]) (bump_allocator 4096) 1%nat);
    try reflexivity; try (simpl; lia).
  intros p size c. simpl. discriminate.
Defined.

Lemma resize_wraps_length_witness :
  exists w',
    list_resize 4 0 three_ints int_list (size_modulus - 1)
      = Done (int_list, slot_addr 4 int_list (3 - 1), w') /\
    list_len w' int_list = Some (3 - 1) /\
    list_cap w' int_list = Some 16 /\
    calls w' = [].
Proof.
  apply (@resize_wraps_length Z positive 4 0 three_ints int_list 1
           (int_list_block 16 [10; 20; 30])); try reflexivity; simpl; lia.
Defined.

Lemma remove_at_keeps_the_others_witness :
  exists w' b',
    list_remove_at 4 three_ints int_list 0 = Done w' /\
    load_prelude w' (list_prelude int_list) = Some b' /\
    holds b' [30; 20] /\
    [30; 20] ≡ₚ [20; 30] /\
    List.length [30; 20] = 2%nat.
Proof.
  apply (@remove_at_keeps_the_others Z positive 4 three_ints int_list 0
           (int_list_block 16 [10; 20; 30]) [10; 20; 30]);
    try reflexivity; try (simpl; lia).
  apply holds_int_list_block.
Defined.

Lemma remove_at_out_of_range_witness :
  exists w',
    list_remove_at 4 three_ints int_list 5 = Done w' /\
    list_len w' int_list = Some (3 - 1) /\
    forall i, 0 <= i < 3 - 1 ->
      read_slot 4 w' int_list i = read_slot 4 three_ints int_list i.
Proof.
  destruct (@remove_at_out_of_range Z positive 4 three_ints int_list 5
              (int_list_block 16 [10; 20; 30]))
    as (_ & _ & Hdrop & _); try reflexivity; try (simpl; unfold size_modulus; lia).
  apply Hdrop; simpl; lia.
Defined.

Lemma append_smaller_item_overruns_witness :
  list_append 4 64 (int_list_world 2 [10; 20] (bump_allocator 4096)) int_list 1 30
    = Undefined.
Proof.
  apply (@append_smaller_item_overruns Z positive 4 64
           (int_list_world 2 [10; 20] (bump_allocator 4096)) int_list 1 30
           (int_list_block 2 [10; 20]) (bump_allocator 4096));
    try reflexivity; try (simpl; lia).
  intros p size c. simpl. discriminate.
Defined.

Lemma create_list_overflow_underallocates_witness :
  exists l w',
    create_list 8 fresh_world 2305843009213693952 8 NULL = Done (l, w') /\
    list_len w' l = Some 0 /\
    list_cap w' l = Some 8 /\
    read_slot 2305843009213693952 w' l (8 - 1) = None /\
    (forall v : Z, write_slot 2305843009213693952 w' l (8 - 1) v = None).
Proof.
  destruct (create_list 8 fresh_world 2305843009213693952 8 NULL) as [[l w']| |] eqn:E;
    [|vm_compute in E; discriminate|vm_compute in E; discriminate].
  exists l, w'. split; [reflexivity|].
  apply (@create_list_overflow_underallocates Z positive 2305843009213693952 8
           fresh_world 8 NULL l w'); try reflexivity; try exact E.
  - vm_compute. discriminate.
  - vm_compute in E. injection E as <- _. discriminate.
Defined.

Lemma main_runs_to_the_end_witness :
  exists w' p q rs,
    main 8 64 fresh_world Z.of_nat
      = Done (0, items_from 0 (map Z.of_nat (seq 0 100))
                   ++ items_from 0 (map Z.of_nat (seq 100 100)), w') /\
    heap w' = ∅ /\
    calls w' = [] ++ [CallAlloc 8 96 p] ++ rs ++ [CallFree 8 q] /\
    List.length rs = 3%nat /\ Forall (realloc_of 8) rs.
Proof.
  apply (@main_runs_to_the_end positive 8 64 fresh_world (bump_allocator 4096) Z.of_nat).
  - reflexivity.
  - reflexivity.
  - intros size c. simpl. discriminate.
  - intros p size c. simpl. discriminate.
  - lia.
Defined.
